(** * Simple-api-server: the user registry of [main.py]

    A shallow embedding of the five request handlers of [main.py]
    ([create_user], [delete_user], [get_users], [upload_users],
    [get_average_age_by_group]) over a model of the SQLAlchemy session they
    open, and the properties of the registry checked against it.

    What is modelled and what is not:
    - a handler runs in a session opened by [SessionLocal]; a statement it
      executes acts on the rows of the session's open transaction, [commit]
      makes these rows the stored ones, [close] drops what was not committed;
    - the [users] table is a list of rows (id, name, age) in insertion order,
      [id] drawn from a sequence, [name] under a uniqueness constraint, [age]
      a 32-bit integer column;
    - Python [str] is Rocq [string], [int] is [Z], and a [float64] is given
      by the rational that is its exact value; where the first character of
      a name or its capital matters, names open with a character below 128;
    - the log file, the HTTP transport and the CSV reader are outside: an
      uploaded file is taken as the rows of the frame [pd.read_csv] returns. *)

From Stdlib Require Import ZArith QArith Qabs String Ascii List Lia.
From Stdlib Require Import DecimalString DecimalPos DecimalZ.
From stdpp Require Import gmap strings list fin_maps.

Close Scope Q_scope.
Open Scope string_scope.
Open Scope Z_scope.

(** ** Data model *)

(** [model.UserCreate], the body of a create request. The class lives in
    [model.py]; [main.py] reads its two fields [name] and [age]. *)
Module UserCreate.
Record t : Type := Build { name : string; age : Z }.
End UserCreate.

(** [class User(Base)], a row of the [users] table. *)
Module User.
Record t : Type := Build { id : Z; name : string; age : Z }.
End User.

(** A row of the frame that [upload_users] iterates over: the columns
    [row['Name']] and [row['Age']], the name as the text the f-string puts
    into the statement for it. *)
Module CsvRow.
Record t : Type := Build { Name : string; Age : Z }.
End CsvRow.

#[global] Instance User_eq_dec : EqDecision User.t.
Proof. solve_decision. Defined.

(** The stored state: the rows of [users] and the sequence behind [id]. *)
Record database : Type := Database { users : list User.t; users_id_seq : Z }.

Definition empty_database : database := Database [] 1.

(** ** Statements handed to [db.execute] *)

Inductive value : Type := VInt (z : Z) | VStr (s : string).

(** [text sql params] is [db.execute(text(sql), params)]: the statement text is
    a constant and the values travel beside it. [plain sql] is
    [db.execute(sql)] on a [str] the caller has assembled. *)
Inductive statement : Type :=
| text (sql : string) (params : gmap string value)
| plain (sql : string).

(** Python exceptions: [HTTPException] and the database errors, which the
    handlers only ever catch as [Exception]. *)
Inductive exception : Type :=
| HTTPException (status_code : Z) (detail : string)
| ProgrammingError
| IntegrityError
| DataError.

(** ** Reading a statement assembled as text *)

(** [f"{age}"] for an integer: its decimal numeral. *)
Definition str (z : Z) : string := NilZero.string_of_int (Z.to_int z).

Fixpoint strip_prefix (p s : string) : option string :=
  match p, s with
  | EmptyString, _ => Some s
  | String a p', String b s' => if Ascii.eqb a b then strip_prefix p' s' else None
  | String _ _, EmptyString => None
  end.

(** The body of a quoted literal, up to its closing quote, and what follows. *)
Fixpoint read_literal (s : string) : option (string * string) :=
  match s with
  | EmptyString => None
  | String c s' =>
      if Ascii.eqb c "'" then Some (EmptyString, s')
      else '(lit, rest) ← read_literal s'; Some (String c lit, rest)
  end.

(** [strip_last c s] is [Some r] when [s] is [r] followed by the one
    character [c]. *)
Fixpoint strip_last (c : ascii) (s : string) : option string :=
  match s with
  | EmptyString => None
  | String a s' =>
      match s' with
      | EmptyString => if Ascii.eqb a c then Some EmptyString else None
      | String _ _ => String a <$> strip_last c s'
      end
  end.

Inductive parsed : Type :=
| SelectWhereName (n : string)
| InsertValues (n : string) (a : Z).

Definition select_prefix : string := "SELECT 1 FROM users WHERE name = '".
Definition insert_prefix : string := "INSERT INTO users (name, age) VALUES ('".

(** The two shapes of statement text the engine model understands: a lookup
    by one quoted name, and an insert of one quoted name and one integer.
    Any other text is answered with [ProgrammingError]. The model is that of
    the engine on names that are [inert] (see below); on a name with a quote
    that makes the text malformed it raises as the engine does; what the
    engine makes of a name that turns the text into another well-formed
    statement, or of a bind marker in it, is outside the model. *)
Definition parse (sql : string) : option parsed :=
  match strip_prefix select_prefix sql with
  | Some r =>
      '(n, rest) ← read_literal r;
      if String.eqb rest "" then Some (SelectWhereName n) else None
  | None =>
      r ← strip_prefix insert_prefix sql;
      '(n, r1) ← read_literal r;
      r2 ← strip_prefix ", " r1;
      digits ← strip_last ")" r2;
      d ← NilZero.int_of_string digits;
      Some (InsertValues n (Z.of_int d))
  end.

(** ** The session *)

(** What a handler can do to the session, in the order it did it. *)
Inductive event : Type :=
| Executed (q : statement)
| Committed
| Closed.

(** A session: the rows as stored, the rows as the open transaction sees
    them, the [id] sequence (which a rollback does not rewind), the objects
    handed to [db.add] and not yet flushed, and the events so far. *)
Record Session : Type := MkSession {
  stored : list User.t;
  rows : list User.t;
  id_seq : Z;
  new : list (string * Z);
  trace : list event
}.

Definition SessionLocal (d : database) : Session :=
  MkSession (users d) (users d) (users_id_seq d) [] [].

Definition set_rows (r : list User.t) (s : Session) : Session :=
  MkSession (stored s) r (id_seq s) (new s) (trace s).
Definition set_stored (r : list User.t) (s : Session) : Session :=
  MkSession r (rows s) (id_seq s) (new s) (trace s).
Definition set_id_seq (i : Z) (s : Session) : Session :=
  MkSession (stored s) (rows s) i (new s) (trace s).
Definition set_new (n : list (string * Z)) (s : Session) : Session :=
  MkSession (stored s) (rows s) (id_seq s) n (trace s).
Definition record (e : event) (s : Session) : Session :=
  MkSession (stored s) (rows s) (id_seq s) (new s) (trace s ++ [e]).

(** Code in a session either returns or raises; the session survives both. *)
Inductive outcome (A : Type) : Type :=
| Return (a : A)
| Raise (e : exception).
Arguments Return {A} a.
Arguments Raise {A} e.

Definition M (A : Type) : Type := Session → outcome A * Session.

#[global] Instance M_ret : MRet M := λ A a s, (Return a, s).
#[global] Instance M_bind : MBind M := λ A B f m s,
  match m s with
  | (Return a, s') => f a s'
  | (Raise e, s') => (Raise e, s')
  end.
#[global] Instance M_fmap : FMap M := λ A B f m s,
  match m s with
  | (Return a, s') => (Return (f a), s')
  | (Raise e, s') => (Raise e, s')
  end.

Definition raise {A : Type} (e : exception) : M A := λ s, (Raise e, s).
Definition modify (f : Session → Session) : M unit := λ s, (Return (), f s).

(** [try: body except Exception as e: handler e] *)
Definition try_except {A : Type} (body : M A) (handler : exception → M A) : M A :=
  λ s, match body s with
       | (Return a, s') => (Return a, s')
       | (Raise e, s') => handler e s'
       end.

(** [try: body finally: cleanup] *)
Definition try_finally {A : Type} (body : M A) (cleanup : M unit) : M A :=
  λ s, match body s with
       | (o, s') => match cleanup s' with
                    | (Return _, s'') => (o, s'')
                    | (Raise e, s'') => (Raise e, s'')
                    end
       end.

(** [if cond: stmt] *)
Definition when (cond : bool) (stmt : M unit) : M unit :=
  if cond then stmt else mret ().

(** [for x in xs: body x] *)
Fixpoint for_each {A : Type} (xs : list A) (body : A → M unit) : M unit :=
  match xs with
  | [] => mret ()
  | x :: xs' => body x;; for_each xs' body
  end.

(** ** The engine behind [db.execute] *)

Definition where_name (n : string) (t : list User.t) : list User.t :=
  filter (λ u, User.name u = n) t.

(** The range of an [Integer] column. *)
Definition int4 (z : Z) : bool := (-2147483648 <=? z) && (z <=? 2147483647).

(** One [INSERT INTO users (name, age)]: the age is checked against the
    column type, and only then the next [id] is drawn and the row is checked
    against [unique=True] on [name]. *)
Definition insert_row (n : string) (a : Z) : M (list User.t) := λ s,
  if negb (int4 a) then (Raise DataError, s)
  else
    let i := id_seq s in
    let s := set_id_seq (i + 1) s in
    if bool_decide (where_name n (rows s) = []) then
      (Return [], set_rows (rows s ++ [User.Build i n a]) s)
    else (Raise IntegrityError, s).

Definition select_where_name (n : string) : M (list User.t) :=
  λ s, (Return (where_name n (rows s)), s).

Definition delete_where_name (n : string) : M (list User.t) :=
  modify (λ s, set_rows (filter (λ u, User.name u ≠ n) (rows s)) s);; mret [].

Definition select_all : M (list User.t) := λ s, (Return (rows s), s).

(** The statement the unit of work emits for a pending [User] object. *)
Definition orm_insert : string :=
  "INSERT INTO users (name, age) VALUES (:name, :age)".

(** The result of a statement is the list of rows it matched (a [SELECT 1]
    shows a [1] for each, a [SELECT name, age] two of their columns). *)
Definition run (q : statement) : M (list User.t) :=
  match q with
  | text sql params =>
      if String.eqb sql "SELECT * FROM users WHERE name = :name" then
        match params !! "name" with
        | Some (VStr n) => select_where_name n
        | _ => raise ProgrammingError
        end
      else if String.eqb sql "DELETE FROM users WHERE name = :name" then
        match params !! "name" with
        | Some (VStr n) => delete_where_name n
        | _ => raise ProgrammingError
        end
      else if String.eqb sql "SELECT * FROM users" then select_all
      else if String.eqb sql "SELECT name, age FROM users" then select_all
      else if String.eqb sql orm_insert then
        match params !! "name", params !! "age" with
        | Some (VStr n), Some (VInt a) => insert_row n a
        | _, _ => raise ProgrammingError
        end
      else raise ProgrammingError
  | plain sql =>
      match parse sql with
      | Some (SelectWhereName n) => select_where_name n
      | Some (InsertValues n a) => insert_row n a
      | None => raise ProgrammingError
      end
  end.

Definition execute (q : statement) : M (list User.t) :=
  λ s, run q (record (Executed q) s).

(** [.fetchone()] and [.fetchall()] *)
Definition fetchone (result : list User.t) : option User.t := head result.
Definition fetchall (result : list User.t) : list User.t := result.

(** [db.add(User(name=..., age=...))] *)
Definition add (n : string) (a : Z) : M unit :=
  modify (λ s, set_new (new s ++ [(n, a)]) s).

(** The pending objects are inserted, oldest first. *)
Definition flush : M unit := λ s,
  for_each (new s)
    (λ u, execute (text orm_insert {[ "name" := VStr u.1; "age" := VInt u.2 ]});; mret ())
    (set_new [] s).

(** [db.commit()]: flush, then make the transaction's rows the stored ones. *)
Definition commit : M unit :=
  flush;; modify (λ s, record Committed (set_stored (rows s) s)).

(** [db.refresh(obj)] reads the row of [obj] again; nothing changes, and
    the read is not listed among the events. *)
Definition refresh : M unit := mret ().

(** [db.close()]: what was not committed is gone. *)
Definition close : M unit :=
  modify (λ s, record Closed (set_new [] (set_rows (stored s) s))).

(** A request: open a session on the database, run the handler, and read
    off its answer, the database it leaves and what it did. *)
Definition call {A : Type} (handler : M A) (d : database)
  : outcome A * database * list event :=
  let '(o, s) := handler (SessionLocal d) in
  (o, Database (stored s) (id_seq s), trace s).

(** ** The handlers of [main.py] *)

Definition internal_error : exception :=
  HTTPException 500 "Internal server error".

(** The [except] clauses of a handler: an [HTTPException] is raised again as
    it is, any other exception becomes the 500 answer. *)
Definition http_or_internal {A : Type} (e : exception) : M A :=
  match e with
  | HTTPException _ _ => raise e
  | _ => raise internal_error
  end.

(** [if result:] on what [fetchone] gave. *)
Definition found (result : option User.t) : bool := bool_decide (is_Some result).

Definition by_name : string := "SELECT * FROM users WHERE name = :name".

(** [POST /users/] *)
Definition create_user (data : UserCreate.t) : M (gmap string string) :=
  let name := UserCreate.name data in
  let age := UserCreate.age data in
  try_finally
    (try_except
       (when (bool_decide (name = ""))
          (raise (HTTPException 422 "User name cannot be empty"));;
        when (120 <? age)
          (raise (HTTPException 400 "User age cannot exceed 120 years"));;
        result ← fetchone <$> execute (text by_name {[ "name" := VStr name ]});
        when (found result)
          (raise (HTTPException 400 "User already exists"));;
        add name age;;
        commit;;
        refresh;;
        mret {[ "detail" := "User '" +:+ name +:+ "' created successfully" ]})
       http_or_internal)
    close.

(** [DELETE /users/{name}] *)
Definition delete_user (name : string) : M (gmap string string) :=
  try_finally
    (try_except
       (result ← fetchone <$> execute (text by_name {[ "name" := VStr name ]});
        when (negb (found result))
          (raise (HTTPException 404 "User not found"));;
        execute (text "DELETE FROM users WHERE name = :name" {[ "name" := VStr name ]});;
        commit;;
        mret {[ "detail" := "User '" +:+ name +:+ "' deleted" ]})
       http_or_internal)
    close.

(** [GET /users/] *)
Definition get_users : M (list User.t) :=
  try_finally
    (try_except
       (result ← fetchall <$> execute (text "SELECT * FROM users" ∅);
        mret result)
       (λ _, raise internal_error))
    close.

(** The statement texts that [upload_users] assembles with f-strings. *)
Definition select_query (name : string) : string :=
  "SELECT 1 FROM users WHERE name = '" +:+ name +:+ "'".
Definition insert_query (name : string) (age : Z) : string :=
  "INSERT INTO users (name, age) VALUES ('" +:+ name +:+ "', " +:+ str age +:+ ")".

(** The body of the loop of [upload_users], for one row of the frame. *)
Definition upload_row (row : CsvRow.t) : M unit :=
  let name := CsvRow.Name row in
  let age := CsvRow.Age row in
  let query := select_query name in
  result ← fetchone <$> execute (plain query);
  when (negb (found result))
    (let insert_query := insert_query name age in
     execute (plain insert_query);; mret ()).

(** [POST /users/upload/] *)
Definition upload_users (csv_data : list CsvRow.t) : M (gmap string string) :=
  try_finally
    (try_except
       (for_each csv_data upload_row;;
        commit;;
        mret {[ "detail" := "Users from CSV uploaded successfully" ]})
       (λ _, raise internal_error))
    close.

(** [str.upper()] on one character below 128. *)
Definition upper (c : ascii) : ascii :=
  let n := N_of_ascii c in
  if ((97 <=? n) && (n <=? 122))%N then ascii_of_N (n - 32) else c.

(** [df['name'].str[0].str.upper()] for one name; an empty name has no
    first character and gets a missing key. *)
Definition group (name : string) : option string :=
  match name with
  | EmptyString => None
  | String c _ => Some (String (upper c) EmptyString)
  end.

(** [df.groupby('group')['age']]: the ages of each key, in row order; rows
    with a missing key are dropped. *)
Definition groupby (user_data : list (string * Z)) : gmap string (list Z) :=
  foldr (λ row groups,
           match group row.1 with
           | Some k => <[k := row.2 :: default [] (groups !! k)]> groups
           | None => groups
           end) ∅ user_data.

Definition sum (ages : list Z) : Z := foldr Z.add 0 ages.

(** The nearest integer to [a / b] for [0 < b], a tie going to the even
    one. *)
Definition nearest_even (a b : Z) : Z :=
  let f := a / b in
  match 2 * (a mod b) ?= b with
  | Lt => f
  | Gt => f + 1
  | Eq => if Z.even f then f else f + 1
  end.

(** [2 ^ k] for [0 ≤ k], and [1] below. *)
Definition up (k : Z) : Z := 2 ^ Z.max 0 k.

(** The exponent [e] at which [a / b], for positive [a] and [b], has a
    53-bit significand: [2^52 ≤ (a / b) / 2^e < 2^53]. *)
Definition exponent (a b : Z) : Z :=
  let l := Z.log2 a - Z.log2 b in
  (if b * up l <=? a * up (- l) then l else l - 1) - 52.

(** The [float64] nearest to a rational, ties to even, given by its exact
    value; the exponent is taken without bounds, the means of ages being far
    from the ends of the range. *)
Definition round64 (q : Q) : Q :=
  let a := Qnum q in
  let b := Z.pos (Qden q) in
  if a =? 0 then 0%Q
  else
    let e := exponent (Z.abs a) b in
    let m := nearest_even (Z.abs a * up (- e)) (b * up e) in
    Qred (Qmake (Z.sgn a * m * up e) (Z.to_pos (up (- e)))).

(** [.mean()] of a group: the [float64] quotient of the sum and the count.
    The sum of the ages themselves is exact in [float64] as long as it stays
    below [2^53], which 32-bit ages do for up to [2^22] rows. *)
Definition mean (ages : list Z) : Q :=
  round64 (Qmake (sum ages) (Pos.of_nat (length ages))).

(** [GET /users/average_age/] *)
Definition get_average_age_by_group : M (gmap string Q) :=
  try_finally
    (try_except
       (result ← fetchall <$> execute (text "SELECT name, age FROM users" ∅);
        when (bool_decide (result = []))
          (raise (HTTPException 404 "No users found"));;
        let user_data := (λ row, (User.name row, User.age row)) <$> result in
        let avg_age_by_group := mean <$> groupby user_data in
        mret avg_age_by_group)
       http_or_internal)
    close.

(** ** The record validator: the two guards that open [create_user] *)

Inductive reason : Type := NameEmpty | AgeOutOfRange.
Inductive ValidationOutcome : Type := Valid | Invalid (r : reason).

Definition validate (candidate : UserCreate.t) : ValidationOutcome :=
  if bool_decide (UserCreate.name candidate = "") then Invalid NameEmpty
  else if 120 <? UserCreate.age candidate then Invalid AgeOutOfRange
  else Valid.

(** The errors of the handlers, by the names the specification gives them. *)
Definition error_of (r : reason) : exception :=
  match r with
  | NameEmpty => HTTPException 422 "User name cannot be empty"
  | AgeOutOfRange => HTTPException 400 "User age cannot exceed 120 years"
  end.
Definition Conflict : exception := HTTPException 400 "User already exists".
Definition NotFound : exception := HTTPException 404 "User not found".
Definition NoRecords : exception := HTTPException 404 "No users found".

(** ** The bodies of the successful answers *)

Definition created (name : string) : gmap string string :=
  {[ "detail" := "User '" +:+ name +:+ "' created successfully" ]}.

Definition deleted (name : string) : gmap string string :=
  {[ "detail" := "User '" +:+ name +:+ "' deleted" ]}.

Definition uploaded : gmap string string :=
  {[ "detail" := "Users from CSV uploaded successfully" ]}.

(** ** What the properties speak of *)

(** Whether a text holds a quote character. *)
Fixpoint has_quote (s : string) : bool :=
  match s with
  | EmptyString => false
  | String c s' => Ascii.eqb c "'" || has_quote s'
  end.

(** The commits among the events: each makes the rows of the transaction
    the stored ones. *)
Definition is_commit (e : event) : bool :=
  match e with Committed => true | _ => false end.
Definition commits (tr : list event) : nat := length (List.filter is_commit tr).

(** The lookups among the events: the texts that open with [select_prefix]. *)
Definition lookup_of (e : event) : option string :=
  match e with
  | Executed (plain sql) =>
      match strip_prefix select_prefix sql with Some _ => Some sql | None => None end
  | _ => None
  end.
Definition lookups (tr : list event) : list string := omap lookup_of tr.

(** What a run of rows can do to a session: it adds rows to the open
    transaction and events without a commit; what is stored and what is
    pending stay as they are. *)
Record grows (s s' : Session) : Prop := Grows {
  grows_stored : stored s' = stored s;
  grows_new : new s' = new s;
  grows_rows : ∃ added, rows s' = (rows s ++ added)%list;
  grows_trace : ∃ evs, trace s' = (trace s ++ evs)%list ∧ commits evs = 0%nat
}.

(** The ages of the rows whose name falls under key [k], in row order. *)
Definition ages_of (k : string) (user_data : list (string * Z)) : list Z :=
  snd <$> filter (λ row, group row.1 = Some k) user_data.

(** An event of the batch import that executes a text put together from
    one of the given rows. *)
Definition assembled_from (csv_data : list CsvRow.t) (e : event) : Prop :=
  ∃ row, row ∈ csv_data
         ∧ (e = Executed (plain (select_query (CsvRow.Name row)))
            ∨ e = Executed (plain (insert_query (CsvRow.Name row) (CsvRow.Age row)))).

(** The one statement of the average request. *)
Definition by_group : event := Executed (text "SELECT name, age FROM users" ∅).

(** ** Sample data *)

(** The three records of the average example of the specification. *)
Definition alice_amy_bob : database :=
  Database [User.Build 1 "Alice" 30; User.Build 2 "Amy" 10; User.Build 3 "Bob" 20] 4.

(** The four rows of the batch example of the specification. *)
Definition batch : list CsvRow.t :=
  [CsvRow.Build "Alice" 30; CsvRow.Build "Alice" 40; CsvRow.Build "" 10; CsvRow.Build "Bob" 999].

(** A frame with a quote in the name of its second row. *)
Definition with_quote : list CsvRow.t :=
  [CsvRow.Build "Alice" 30; CsvRow.Build "O'Brien" 40; CsvRow.Build "Bob" 20].

(** ** Further vocabulary: invariants and the tests *)

(** No two stored rows share a name: what [unique=True] on [name] asks. *)
Definition unique_names (us : list User.t) : Prop := NoDup (User.name <$> us).

(** The session was closed once, as the last event. *)
Definition closed_last (tr : list event) : Prop :=
  ∃ evs, tr = (evs ++ [Closed])%list ∧ Forall (λ e, e ≠ Closed) evs.

(** Whether a candidate and a stored row carry the same name and age. *)
Definition row_of (r : CsvRow.t) (u : User.t) : Prop :=
  User.name u = CsvRow.Name r ∧ User.age u = CsvRow.Age r.

(** ** Names the driver and the statement text take as they are *)

(** Whether a text holds the character of code 0, which the database driver
    refuses in a value. *)
Fixpoint has_nul (s : string) : bool :=
  match s with
  | EmptyString => false
  | String c s' => Ascii.eqb c Ascii.zero || has_nul s'
  end.

(** The characters that change what a statement text says when a name is
    spliced into it: the quote, the colon of a bind marker, the backslash,
    the percent sign and the character of code 0. *)
Definition special (c : ascii) : bool :=
  Ascii.eqb c "'" || Ascii.eqb c ":" || Ascii.eqb c "\" || Ascii.eqb c "%"
  || Ascii.eqb c Ascii.zero.

(** A name without any of them: spliced between quotes it is a literal of
    that very name. *)
Fixpoint inert (s : string) : bool :=
  match s with
  | EmptyString => true
  | String c s' => negb (special c) && inert s'
  end.




(** * Properties *)

(** ** The engine on sample texts *)

Example parse_select_Alice :
  parse "SELECT 1 FROM users WHERE name = 'Alice'" = Some (SelectWhereName "Alice").
Proof. reflexivity. Qed.

Example parse_insert_Alice :
  parse "INSERT INTO users (name, age) VALUES ('Alice', 30)"
  = Some (InsertValues "Alice" 30).
Proof. reflexivity. Qed.

Example parse_select_quote :
  parse "SELECT 1 FROM users WHERE name = 'O'Brien'" = None.
Proof. reflexivity. Qed.

Example str_examples : str 30 = "30" /\ str 0 = "0" /\ str (-5) = "-5".
Proof. repeat split; reflexivity. Qed.

(** ** The statement texts of [upload_users], read back by the engine *)

Lemma append_cons c s t : String c s +:+ t = String c (s +:+ t).
Proof. reflexivity. Qed.

Lemma append_nil s : "" +:+ s = s.
Proof. reflexivity. Qed.

Lemma strip_prefix_app p s : strip_prefix p (p +:+ s) = Some s.
Proof.
  induction p as [|a p IH]; [reflexivity|].
  rewrite append_cons. simpl. now rewrite Ascii.eqb_refl.
Qed.

Lemma strip_prefix_inv p s r : strip_prefix p s = Some r → s = p +:+ r.
Proof.
  revert s. induction p as [|a p IH]; intros s H.
  - simpl in H. now inversion H.
  - destruct s as [|b s]; [discriminate|]. simpl in H.
    destruct (Ascii.eqb_spec a b) as [->|]; [|discriminate].
    rewrite append_cons. f_equal. now apply IH.
Qed.

Lemma strip_last_app c s : strip_last c (s +:+ String c "") = Some s.
Proof.
  induction s as [|a s IH].
  - simpl. now rewrite Ascii.eqb_refl.
  - rewrite append_cons. simpl. rewrite IH.
    destruct s; reflexivity.
Qed.

Lemma strip_last_inv c s r : strip_last c s = Some r → s = r +:+ String c "".
Proof.
  revert r. induction s as [|a s IH]; intros r H; [discriminate|].
  simpl in H. destruct s as [|b s].
  - destruct (Ascii.eqb_spec a c) as [->|]; [|discriminate].
    now inversion H.
  - destruct (strip_last c (String b s)) as [r'|] eqn:E; [|discriminate].
    inversion H. rewrite append_cons. f_equal. now apply IH.
Qed.

Lemma has_quote_app s t : has_quote (s +:+ t) = has_quote s || has_quote t.
Proof.
  induction s as [|a s IH]; [reflexivity|].
  rewrite append_cons. simpl. rewrite IH. now rewrite orb_assoc.
Qed.

Lemma has_quote_uint u : has_quote (NilEmpty.string_of_uint u) = false.
Proof. induction u; simpl; auto. Qed.

Lemma has_quote_int d : has_quote (NilZero.string_of_int d) = false.
Proof.
  destruct d as [u|u]; simpl; destruct u; simpl; auto using has_quote_uint.
Qed.

Lemma to_int_proper z : Z.to_int z ≠ Decimal.Pos Decimal.Nil ∧ Z.to_int z ≠ Decimal.Neg Decimal.Nil.
Proof.
  destruct z as [|p|p]; simpl; split; try discriminate;
    intros [= H]; now apply DecimalPos.Unsigned.to_uint_nonnil in H.
Qed.

Lemma int_of_string_str z : NilZero.int_of_string (str z) = Some (Z.to_int z).
Proof. unfold str. apply NilZero.isi; apply to_int_proper. Qed.

#[local] Arguments strip_prefix : simpl never.
#[local] Arguments strip_last : simpl never.
#[local] Arguments NilZero.int_of_string : simpl never.

(** A name is read back from the lookup text only as itself. *)
Lemma read_literal_select n lit :
  read_literal (n +:+ "'") = Some (lit, "") → lit = n.
Proof.
  revert lit. induction n as [|c n IH]; intros lit H.
  - simpl in H. now inversion H.
  - rewrite append_cons in H. simpl in H.
    destruct (Ascii.eqb c "'").
    + inversion H as [[H1 H2]]. destruct n; discriminate.
    + destruct (read_literal (n +:+ "'")) as [[lit' rest]|] eqn:E; [|discriminate].
      simpl in H. inversion H; subst. f_equal. now apply IH.
Qed.

Lemma parse_select_query n p :
  parse (select_query n) = Some p → p = SelectWhereName n.
Proof.
  unfold parse, select_query. rewrite strip_prefix_app.
  destruct (read_literal (n +:+ "'")) as [[lit rest]|] eqn:E; [|discriminate].
  simpl. destruct (String.eqb_spec rest "") as [->|]; [|discriminate].
  intros [= <-]. f_equal. now apply read_literal_select.
Qed.

(** The tail of an insert text after the name: only when the name holds no
    quote can it be read, and then as that name and that age. *)
Lemma read_literal_insert n a lit r1 r2 digits d :
  read_literal (n +:+ "', " +:+ str a +:+ ")") = Some (lit, r1) →
  strip_prefix ", " r1 = Some r2 →
  strip_last ")" r2 = Some digits →
  NilZero.int_of_string digits = Some d →
  lit = n ∧ Z.of_int d = a.
Proof.
  revert lit. induction n as [|c n IH]; intros lit H1 H2 H3 H4.
  - rewrite append_nil in H1. simpl in H1. inversion H1; subst.
    rewrite strip_prefix_app in H2. inversion H2; subst.
    rewrite strip_last_app in H3. inversion H3; subst.
    rewrite int_of_string_str in H4. inversion H4; subst.
    split; [reflexivity | apply DecimalZ.of_to].
  - rewrite append_cons in H1. simpl in H1.
    destruct (Ascii.eqb c "'").
    + exfalso. inversion H1; subst.
      apply strip_prefix_inv in H2. apply strip_last_inv in H3.
      apply NilZero.sis in H4.
      assert (Hq : has_quote (n +:+ "', " +:+ str a +:+ ")") = true).
      { rewrite has_quote_app. simpl. now rewrite orb_true_r. }
      rewrite H2, H3 in Hq. rewrite !append_cons, append_nil in Hq.
      simpl in Hq. rewrite has_quote_app in Hq. simpl in Hq.
      rewrite orb_false_r, <- H4, has_quote_int in Hq. discriminate.
    + destruct (read_literal (n +:+ "', " +:+ str a +:+ ")")) as [[lit' rest]|] eqn:E;
        [|discriminate].
      simpl in H1. inversion H1; subst.
      destruct (IH lit' eq_refl H2 H3 H4) as [-> ?]. now split.
Qed.

Lemma parse_insert_query n a p :
  parse (insert_query n a) = Some p → p = InsertValues n a.
Proof.
  unfold parse, insert_query.
  replace (strip_prefix select_prefix _) with (@None string) by reflexivity.
  fold insert_prefix. rewrite strip_prefix_app. simpl.
  destruct (read_literal _) as [[lit r1]|] eqn:E1; [|discriminate]. simpl.
  destruct (strip_prefix ", " r1) as [r2|] eqn:E2; [|discriminate]. simpl.
  destruct (strip_last ")" r2) as [digits|] eqn:E3; [|discriminate]. simpl.
  destruct (NilZero.int_of_string digits) as [d|] eqn:E4; [|discriminate]. simpl.
  intros [= <-].
  destruct (read_literal_insert _ _ _ _ _ _ _ E1 E2 E3 E4) as [-> ->].
  reflexivity.
Qed.

(** On a name without a quote both texts are read as meant. *)
Lemma read_literal_plain n rest :
  has_quote n = false → read_literal (n +:+ String "'" rest) = Some (n, rest).
Proof.
  induction n as [|c n IH]; intros H.
  - reflexivity.
  - simpl in H. apply orb_false_elim in H as [Hc Hn].
    rewrite append_cons. simpl. rewrite Hc, (IH Hn). reflexivity.
Qed.

Lemma parse_select_plain n :
  has_quote n = false → parse (select_query n) = Some (SelectWhereName n).
Proof.
  intros H. unfold parse, select_query. rewrite strip_prefix_app.
  now rewrite (read_literal_plain n "" H).
Qed.

Lemma parse_insert_plain n a :
  has_quote n = false → parse (insert_query n a) = Some (InsertValues n a).
Proof.
  intros H. unfold parse, insert_query.
  replace (strip_prefix select_prefix _) with (@None string) by reflexivity.
  fold insert_prefix. rewrite strip_prefix_app. simpl.
  change ("', " +:+ str a +:+ ")") with (String "'" (", " +:+ str a +:+ ")")).
  rewrite (read_literal_plain n _ H). simpl.
  rewrite ?append_nil, strip_last_app. simpl. rewrite int_of_string_str. simpl.
  now rewrite DecimalZ.of_to.
Qed.

(** ** What the engine does with the statements of the handlers *)

#[local] Arguments run : simpl never.
#[local] Arguments insert_row : simpl never.
#[local] Arguments where_name : simpl never.

Lemma run_by_name n : run (text by_name {[ "name" := VStr n ]}) = select_where_name n.
Proof. reflexivity. Qed.

Lemma run_delete n :
  run (text "DELETE FROM users WHERE name = :name" {[ "name" := VStr n ]})
  = delete_where_name n.
Proof. reflexivity. Qed.

Lemma run_orm_insert n a :
  run (text orm_insert {[ "name" := VStr n; "age" := VInt a ]}) = insert_row n a.
Proof. reflexivity. Qed.

Lemma found_fetchone (result : list User.t) :
  found (fetchone result) = negb (bool_decide (result = [])).
Proof. now destruct result. Qed.

(** The four ways a create request can go. *)
Lemma create_user_cases data d :
  let name := UserCreate.name data in
  let age := UserCreate.age data in
  let lookup := Executed (text by_name {[ "name" := VStr name ]}) in
  let insert := Executed (text orm_insert {[ "name" := VStr name; "age" := VInt age ]}) in
  call (create_user data) d =
    if bool_decide (name = "") then (Raise (error_of NameEmpty), d, [Closed])
    else if 120 <? age then (Raise (error_of AgeOutOfRange), d, [Closed])
    else if negb (bool_decide (where_name name (users d) = [])) then
      (Raise Conflict, d, [lookup; Closed])
    else if int4 age then
      (Return (created name),
       Database (users d ++ [User.Build (users_id_seq d) name age]) (users_id_seq d + 1),
       [lookup; insert; Committed; Closed])
    else
      (Raise internal_error, d, [lookup; insert; Closed]).
Proof.
  destruct data as [name age], d as [us seq]. simpl.
  unfold call, create_user, try_finally, try_except. simpl.
  case_bool_decide; [reflexivity|].
  destruct (120 <? age); [reflexivity|].
  unfold mbind, M_bind, fmap, M_fmap, execute. rewrite run_by_name.
  simpl. rewrite found_fetchone.
  case_bool_decide as Hn; simpl; [|reflexivity].
  unfold commit, flush, mbind, M_bind, modify. cbn.
  unfold mbind, M_bind, execute. rewrite run_orm_insert.
  unfold insert_row. destruct (int4 age); cbn; [|reflexivity].
  rewrite Hn. reflexivity.
Qed.

(** The two ways a delete request can go. *)
Lemma delete_user_cases name d :
  let lookup := Executed (text by_name {[ "name" := VStr name ]}) in
  let delete :=
    Executed (text "DELETE FROM users WHERE name = :name" {[ "name" := VStr name ]}) in
  call (delete_user name) d =
    if bool_decide (where_name name (users d) = []) then
      (Raise NotFound, d, [lookup; Closed])
    else
      (Return (deleted name),
       Database (filter (λ u, User.name u ≠ name) (users d)) (users_id_seq d),
       [lookup; delete; Committed; Closed]).
Proof.
  destruct d as [us seq]. simpl.
  unfold call, delete_user, try_finally, try_except.
  unfold mbind, M_bind, fmap, M_fmap, execute. rewrite run_by_name.
  cbn. rewrite found_fetchone.
  case_bool_decide as Hn; cbn; [reflexivity|].
  unfold mbind, M_bind, execute. rewrite run_delete. reflexivity.
Qed.

(** ** Validation and creation *)

Lemma where_name_snoc n us i a :
  where_name n us = [] → where_name n (us ++ [User.Build i n a]) = [User.Build i n a].
Proof.
  intros H. unfold where_name in *. rewrite filter_app, H. simpl.
  rewrite filter_cons_True by reflexivity. reflexivity.
Qed.

(** C3. The validator checks the name first and the age second: an empty
    name is [NameEmpty] whatever the age, [AgeOutOfRange] is given exactly to
    a non-empty name with an age above 120, and on either verdict
    [create_user] answers with the matching error, executes nothing and
    leaves the database as it was. *)
Theorem validator_first_failure_wins (candidate : UserCreate.t) (d : database) :
  (UserCreate.name candidate = "" → validate candidate = Invalid NameEmpty)
  ∧ (validate candidate = Invalid AgeOutOfRange
     ↔ UserCreate.name candidate ≠ "" ∧ 120 < UserCreate.age candidate)
  ∧ (∀ r, validate candidate = Invalid r →
          call (create_user candidate) d = (Raise (error_of r), d, [Closed])).
Proof.
  rewrite create_user_cases. unfold validate.
  destruct candidate as [name age]; simpl.
  case_bool_decide as Hname.
  - split; [reflexivity|]. split.
    + split; [discriminate | intros [? _]; contradiction].
    + now intros r [= <-].
  - split; [contradiction|].
    destruct (Z.ltb_spec 120 age) as [Hage|Hage].
    + split; [now split | now intros r [= <-]].
    + split; [|discriminate]. split; [discriminate | lia].
Qed.

Lemma validator_first_failure_wins_witness :
  validate (UserCreate.Build "" 999) = Invalid NameEmpty
  ∧ call (create_user (UserCreate.Build "" 999)) empty_database
    = (Raise (error_of NameEmpty), empty_database, [Closed]).
Proof.
  destruct (validator_first_failure_wins (UserCreate.Build "" 999) empty_database)
    as (Hempty & _ & Hcreate).
  split; [apply Hempty; reflexivity | apply Hcreate, Hempty; reflexivity].
Defined.

(** Against C8 as stated: a candidate with a non-empty name and an age of
    at most 120 that is refused for its age. One below the range of the age
    column the insert raises and the answer is the 500 error, nothing
    stored; at the lowest age of the range the same candidate is stored. *)
Lemma age_below_column_is_refused :
  let candidate := UserCreate.Build "Al" (-2147483649) in
  UserCreate.name candidate ≠ "" ∧ UserCreate.age candidate ≤ 120
  ∧ call (create_user candidate) empty_database
    = (Raise internal_error, empty_database,
       [Executed (text by_name {[ "name" := VStr "Al" ]});
        Executed (text orm_insert {[ "name" := VStr "Al"; "age" := VInt (-2147483649) ]});
        Closed])
  ∧ (call (create_user (UserCreate.Build "Al" (-2147483648))) empty_database).1
    = (Return (created "Al"), Database [User.Build 1 "Al" (-2147483648)] 2).
Proof.
  split; [discriminate|]. split; [simpl; lia|].
  split; vm_compute; reflexivity.
Qed.

(** C8, amended. Only the upper bound is checked by the handler: a candidate
    with a non-empty name and an age of at most 120, however far below zero,
    passes the validator and is never answered with the age error. What
    bounds the age from below is the 32-bit column: with a name the driver
    takes and no stored row has, the candidate is stored when its age is at
    least -2147483648, and below that the request fails with the 500 error
    and the database stays as it was. *)
Theorem age_lower_bound_is_the_column (candidate : UserCreate.t) (d : database) :
  UserCreate.name candidate ≠ "" →
  UserCreate.age candidate ≤ 120 →
  validate candidate = Valid
  ∧ (call (create_user candidate) d).1.1 ≠ Raise (error_of AgeOutOfRange)
  ∧ (has_nul (UserCreate.name candidate) = false →
     where_name (UserCreate.name candidate) (users d) = [] →
     (call (create_user candidate) d).1
     = if -2147483648 <=? UserCreate.age candidate
       then (Return (created (UserCreate.name candidate)),
             Database
               (users d ++ [User.Build (users_id_seq d) (UserCreate.name candidate)
                              (UserCreate.age candidate)])
               (users_id_seq d + 1))
       else (Raise internal_error, d)).
Proof.
  intros Hname Hage. rewrite create_user_cases. unfold validate.
  destruct candidate as [name age]; simpl in *.
  rewrite bool_decide_eq_false_2 by assumption.
  destruct (Z.ltb_spec 120 age) as [?|_]; [lia|].
  split; [reflexivity|]. split.
  - case_bool_decide; simpl; [destruct (int4 age)|]; simpl; discriminate.
  - intros _ Hfree. rewrite bool_decide_eq_true_2 by assumption. simpl.
    unfold int4. replace (age <=? 2147483647) with true
      by (symmetry; apply Z.leb_le; lia).
    rewrite andb_true_r. now destruct (-2147483648 <=? age).
Qed.

Lemma age_lower_bound_is_the_column_witness :
  validate (UserCreate.Build "Al" (-5)) = Valid
  ∧ (call (create_user (UserCreate.Build "Al" (-5))) empty_database).1
    = (Return (created "Al"), Database [User.Build 1 "Al" (-5)] 2).
Proof.
  destruct (age_lower_bound_is_the_column (UserCreate.Build "Al" (-5)) empty_database)
    as (Hvalid & _ & Hstored); [discriminate | simpl; lia |].
  split; [exact Hvalid | apply Hstored; reflexivity].
Defined.

(** The second of two creates with one name, where the second asks for an
    age above 120: the answer is the age error, not the conflict. *)
Lemma second_create_age_error :
  let first := call (create_user (UserCreate.Build "Alice" 30)) empty_database in
  first.1.1 = Return (created "Alice")
  ∧ (call (create_user (UserCreate.Build "Alice" 130)) first.1.2).1
    = (Raise (error_of AgeOutOfRange), first.1.2)
  ∧ error_of AgeOutOfRange ≠ Conflict.
Proof.
  split; [vm_compute; reflexivity|]. split; [vm_compute; reflexivity|]. discriminate.
Qed.

(** C4, amended. After a create that succeeded, a second create with the
    same name fails and changes nothing: with the conflict error when its age
    is at most 120, with the age error otherwise. Exactly one record with
    that name is then stored, the one of the first create. *)
Theorem second_create_fails (c1 c2 : UserCreate.t) (d d1 : database)
    (answer : gmap string string) (tr1 : list event) :
  UserCreate.name c2 = UserCreate.name c1 →
  call (create_user c1) d = (Return answer, d1, tr1) →
  (∃ tr2, call (create_user c2) d1
          = (Raise (if 120 <? UserCreate.age c2
                    then error_of AgeOutOfRange else Conflict), d1, tr2))
  ∧ where_name (UserCreate.name c1) (users d1)
    = [User.Build (users_id_seq d) (UserCreate.name c1) (UserCreate.age c1)].
Proof.
  intros Hsame Hfirst. rewrite create_user_cases in Hfirst.
  rewrite create_user_cases, Hsame.
  destruct c1 as [name age1], c2 as [name2 age2]; simpl in *.
  case_bool_decide as Hname; [discriminate|].
  destruct (120 <? age1); [discriminate|].
  case_bool_decide as Hfree; simpl in Hfirst; [|discriminate].
  destruct (int4 age1); [|discriminate].
  injection Hfirst as _ <- _. simpl.
  pose proof (where_name_snoc name (users d) (users_id_seq d) age1 Hfree) as Hone.
  split; [|exact Hone].
  destruct (120 <? age2); [eauto|].
  rewrite bool_decide_eq_false_2; [simpl; eauto|].
  rewrite Hone. discriminate.
Qed.

Lemma second_create_fails_witness :
  (∃ tr2, call (create_user (UserCreate.Build "Alice" 40))
               (Database [User.Build 1 "Alice" 30] 2)
          = (Raise Conflict, Database [User.Build 1 "Alice" 30] 2, tr2))
  ∧ where_name "Alice" [User.Build 1 "Alice" 30] = [User.Build 1 "Alice" 30].
Proof.
  apply (second_create_fails (UserCreate.Build "Alice" 30) (UserCreate.Build "Alice" 40)
           empty_database (Database [User.Build 1 "Alice" 30] 2) (created "Alice")
           [Executed (text by_name {[ "name" := VStr "Alice" ]});
            Executed (text orm_insert {[ "name" := VStr "Alice"; "age" := VInt 30 ]});
            Committed; Closed]);
    reflexivity.
Defined.

(** ** One change on success, none on failure *)



(** Deleting a name that is not stored, and creating a stored name again. *)
Example delete_absent_name :
  call (delete_user "Carol") alice_amy_bob
  = (Raise NotFound, alice_amy_bob,
     [Executed (text by_name {[ "name" := VStr "Carol" ]}); Closed]).
Proof. reflexivity. Qed.

Example delete_present_name :
  (call (delete_user "Amy") alice_amy_bob).1
  = (Return (deleted "Amy"),
     Database [User.Build 1 "Alice" 30; User.Build 3 "Bob" 20] 4).
Proof. reflexivity. Qed.

(** ** The loop of [upload_users] *)

Lemma read_literal_no_quote s lit rest :
  read_literal s = Some (lit, rest) → has_quote lit = false.
Proof.
  revert lit. induction s as [|c s IH]; intros lit H; [discriminate|].
  simpl in H. destruct (Ascii.eqb c "'") eqn:Ec.
  - now inversion H.
  - destruct (read_literal s) as [[lit' rest']|]; [|discriminate].
    simpl in H. inversion H; subst. simpl. rewrite Ec. now apply IH.
Qed.

(** The lookup text is understood exactly when the name holds no quote. *)
Lemma parse_select_query_cases n :
  parse (select_query n) = if has_quote n then None else Some (SelectWhereName n).
Proof.
  destruct (has_quote n) eqn:Hq; [|now apply parse_select_plain].
  destruct (parse (select_query n)) as [p|] eqn:E; [exfalso|reflexivity].
  unfold parse, select_query in E. rewrite strip_prefix_app in E.
  destruct (read_literal (n +:+ "'")) as [[lit rest]|] eqn:E1; [|discriminate].
  simpl in E. destruct (String.eqb_spec rest "") as [->|]; [|discriminate].
  pose proof (read_literal_no_quote _ _ _ E1) as Hlit.
  apply read_literal_select in E1. congruence.
Qed.

Lemma for_each_cons {A : Type} (x : A) xs body s :
  for_each (x :: xs) body s =
    match body x s with
    | (Return _, s') => for_each xs body s'
    | (Raise e, s') => (Raise e, s')
    end.
Proof. reflexivity. Qed.

(** The four ways one row of the frame can go: the lookup text is broken
    by a quote in the name; the name is found and nothing is inserted; the
    insert is refused for the age; the row is inserted. *)
Lemma upload_row_cases row s :
  let name := CsvRow.Name row in
  let age := CsvRow.Age row in
  let s1 := record (Executed (plain (select_query name))) s in
  let s2 := record (Executed (plain (insert_query name age))) s1 in
  upload_row row s =
    if has_quote name then (Raise ProgrammingError, s1)
    else if negb (bool_decide (where_name name (rows s) = [])) then (Return (), s1)
    else if negb (int4 age) then (Raise DataError, s2)
    else (Return (),
          set_rows (rows s ++ [User.Build (id_seq s) name age])
            (set_id_seq (id_seq s + 1) s2)).
Proof.
  destruct row as [name age]. simpl.
  unfold upload_row, mbind, M_bind, fmap, M_fmap, execute. simpl.
  unfold run at 1. rewrite parse_select_query_cases.
  destruct (has_quote name) eqn:Hq; [reflexivity|].
  unfold select_where_name. cbn. rewrite found_fetchone.
  case_bool_decide as Hn; cbn; [|reflexivity].
  unfold mbind, M_bind, execute, run. rewrite (parse_insert_plain _ _ Hq).
  unfold insert_row. destruct (int4 age); cbn; [|reflexivity].
  rewrite Hn. reflexivity.
Qed.

Lemma grows_refl s : grows s s.
Proof.
  split; try reflexivity; exists []; [|split]; now rewrite ?app_nil_r.
Qed.

Lemma grows_trans s1 s2 s3 : grows s1 s2 → grows s2 s3 → grows s1 s3.
Proof.
  intros [Hs1 Hn1 [a1 Hr1] [e1 [Ht1 Hc1]]] [Hs2 Hn2 [a2 Hr2] [e2 [Ht2 Hc2]]].
  split; [congruence | congruence | |].
  - exists (a1 ++ a2)%list. now rewrite Hr2, Hr1, app_assoc.
  - exists (e1 ++ e2)%list. split; [now rewrite Ht2, Ht1, app_assoc|].
    unfold commits in *. rewrite List.filter_app, length_app. lia.
Qed.

Lemma upload_row_grows row s o s' : upload_row row s = (o, s') → grows s s'.
Proof.
  rewrite upload_row_cases. intros H.
  destruct (has_quote _); [|destruct (negb (bool_decide _)); [|destruct (negb (int4 _))]];
    inversion H; subst; clear H; (split; simpl; [reflexivity | reflexivity | |]);
    try (now exists []; rewrite app_nil_r); try (now eexists; split; [reflexivity|]);
    try (now eexists; split; [rewrite <- app_assoc; reflexivity|]).
  now eexists.
Qed.

Lemma for_each_grows csv_data s o s' :
  for_each csv_data upload_row s = (o, s') → grows s s'.
Proof.
  revert s. induction csv_data as [|row csv_data IH]; intros s H.
  - inversion H. apply grows_refl.
  - rewrite for_each_cons in H.
    destruct (upload_row row s) as [[[]|e] s1] eqn:Hrow.
    + eapply grows_trans; [eapply upload_row_grows, Hrow | now apply IH].
    + inversion H; subst. eapply upload_row_grows, Hrow.
Qed.

Lemma upload_row_lookups row s o s' :
  upload_row row s = (o, s') →
  lookups (trace s') = (lookups (trace s) ++ [select_query (CsvRow.Name row)])%list.
Proof.
  rewrite upload_row_cases. intros H.
  assert (Hsel : lookup_of (Executed (plain (select_query (CsvRow.Name row))))
                 = Some (select_query (CsvRow.Name row))).
  { unfold lookup_of, select_query. now rewrite strip_prefix_app. }
  assert (Hins : lookup_of (Executed (plain (insert_query (CsvRow.Name row) (CsvRow.Age row))))
                 = None) by reflexivity.
  unfold lookups.
  destruct (has_quote _); [|destruct (negb (bool_decide _)); [|destruct (negb (int4 _))]];
    inversion H; subst; clear H; cbn [trace record set_id_seq set_rows];
    rewrite ?omap_app; cbn [omap list_omap]; rewrite Hsel, ?Hins, <- ?app_assoc; reflexivity.
Qed.

Lemma for_each_lookups csv_data s s' :
  for_each csv_data upload_row s = (Return (), s') →
  lookups (trace s')
  = (lookups (trace s) ++ ((λ row, select_query (CsvRow.Name row)) <$> csv_data))%list.
Proof.
  revert s. induction csv_data as [|row csv_data IH]; intros s H.
  - inversion H. now rewrite app_nil_r.
  - rewrite for_each_cons in H.
    destruct (upload_row row s) as [[[]|e] s1] eqn:Hrow; [|discriminate].
    rewrite (IH _ H), (upload_row_lookups _ _ _ _ Hrow), <- app_assoc. reflexivity.
Qed.

(** A loop either gets through all its rows or stops at the first that
    raises. *)
Lemma for_each_stops {A : Type} (xs : list A) body s :
  (∃ s', for_each xs body s = (Return (), s'))
  ∨ (∃ done x rest s1 e s2,
        xs = (done ++ x :: rest)%list
        ∧ for_each done body s = (Return (), s1)
        ∧ body x s1 = (Raise e, s2)
        ∧ for_each xs body s = (Raise e, s2)).
Proof.
  revert s. induction xs as [|x xs IH]; intros s; [left; now eexists|].
  rewrite for_each_cons.
  destruct (body x s) as [[[]|e] s1] eqn:Hx.
  - destruct (IH s1) as [[s' H]|(done & y & rest & s2 & e & s3 & -> & Hd & Hy & H)].
    + left. eauto.
    + right. exists (x :: done), y, rest, s2, e, s3.
      rewrite for_each_cons, Hx. auto.
  - right. exists [], x, xs, s, e, s1. auto.
Qed.

(** The request around the loop: one commit after it, or the 500 answer. *)
Lemma upload_users_call csv_data d :
  call (upload_users csv_data) d =
    match for_each csv_data upload_row (SessionLocal d) with
    | (Return _, s) =>
        (Return uploaded, Database (rows s) (id_seq s), (trace s ++ [Committed; Closed])%list)
    | (Raise _, s) =>
        (Raise internal_error, Database (users d) (id_seq s), (trace s ++ [Closed])%list)
    end.
Proof.
  unfold call, upload_users, try_finally, try_except.
  unfold mbind at 1. unfold M_bind at 1.
  destruct (for_each csv_data upload_row (SessionLocal d)) as [[[]|e] s] eqn:Hloop;
    apply for_each_grows in Hloop as [Hstored Hnew _ _]; simpl in *.
  - unfold commit, flush, mbind, M_bind, modify. rewrite Hnew. cbn.
    now rewrite <- app_assoc.
  - now rewrite Hstored.
Qed.

Lemma for_each_raise {A : Type} (done : list A) x rest body s s1 e s2 :
  for_each done body s = (Return (), s1) →
  body x s1 = (Raise e, s2) →
  for_each (done ++ x :: rest) body s = (Raise e, s2).
Proof.
  revert s. induction done as [|y done IH]; intros s Hdone Hx.
  - inversion Hdone; subst. cbn [app]. rewrite for_each_cons, Hx. reflexivity.
  - rewrite for_each_cons in Hdone. cbn [app]. rewrite for_each_cons.
    destruct (body y s) as [[[]|e'] s']; [now apply IH | discriminate].
Qed.

Lemma upload_row_keeps_one row s s' n u :
  upload_row row s = (Return (), s') →
  where_name n (rows s) = [u] → where_name n (rows s') = [u].
Proof.
  rewrite upload_row_cases. intros H Hone.
  destruct (has_quote _); [discriminate|].
  case_bool_decide as Hfree; simpl in H; [|now inversion H].
  destruct (negb (int4 _)); [discriminate|].
  inversion H; subst; clear H. simpl.
  unfold where_name in *. rewrite filter_app, Hone.
  rewrite filter_cons_False, filter_nil; [reflexivity|].
  simpl. intros <-. congruence.
Qed.

Lemma for_each_keeps_one csv_data s s' n u :
  for_each csv_data upload_row s = (Return (), s') →
  where_name n (rows s) = [u] → where_name n (rows s') = [u].
Proof.
  revert s. induction csv_data as [|row csv_data IH]; intros s H Hone.
  - now inversion H; subst.
  - rewrite for_each_cons in H.
    destruct (upload_row row s) as [[[]|e] s1] eqn:Hrow; [|discriminate].
    eapply IH; [exact H|]. eapply upload_row_keeps_one; eauto.
Qed.

(** ** Batch import *)



(** C10. All or nothing. While the loop runs nothing is committed and what
    is stored stays as it was. When every row has gone through, the rows of
    the transaction are committed, once and last. When a row raises, the
    request answers with the 500 error and the stored rows are those from
    before the batch, whatever the rows before it inserted and whatever the
    exception was. *)
Theorem upload_all_or_nothing (csv_data : list CsvRow.t) (d : database) :
  (∃ o s, for_each csv_data upload_row (SessionLocal d) = (o, s)
          ∧ stored s = users d
          ∧ commits (trace s) = 0%nat
          ∧ call (upload_users csv_data) d =
              match o with
              | Return _ =>
                  (Return uploaded, Database (rows s) (id_seq s),
                   (trace s ++ [Committed; Closed])%list)
              | Raise _ =>
                  (Raise internal_error, Database (users d) (id_seq s),
                   (trace s ++ [Closed])%list)
              end)
  ∧ (∀ done row rest s1 e s2,
        csv_data = (done ++ row :: rest)%list →
        for_each done upload_row (SessionLocal d) = (Return (), s1) →
        upload_row row s1 = (Raise e, s2) →
        call (upload_users csv_data) d
        = (Raise internal_error, Database (users d) (id_seq s2), (trace s2 ++ [Closed])%list)).
Proof.
  split.
  - destruct (for_each csv_data upload_row (SessionLocal d)) as [o s] eqn:Hloop.
    exists o, s. split; [reflexivity|].
    pose proof (for_each_grows _ _ _ _ Hloop) as [Hst _ _ [evs [Htr Hc]]].
    simpl in *. subst. rewrite upload_users_call, Hloop.
    split; [exact Hst|]. split; [exact Hc|]. now destruct o.
  - intros done row rest s1 e s2 -> Hdone Hrow.
    rewrite upload_users_call, (for_each_raise _ _ rest _ _ _ _ _ Hdone Hrow).
    reflexivity.
Qed.

Lemma upload_all_or_nothing_witness :
  call (upload_users with_quote) empty_database
  = (Raise internal_error, Database [] 2,
     [Executed (plain "SELECT 1 FROM users WHERE name = 'Alice'");
      Executed (plain "INSERT INTO users (name, age) VALUES ('Alice', 30)");
      Executed (plain "SELECT 1 FROM users WHERE name = 'O'Brien'");
      Closed]).
Proof.
  destruct (upload_all_or_nothing with_quote empty_database) as [_ H].
  exact (H [CsvRow.Build "Alice" 30] (CsvRow.Build "O'Brien" 40) [CsvRow.Build "Bob" 20]
           (upload_row (CsvRow.Build "Alice" 30) (SessionLocal empty_database)).2
           ProgrammingError
           (upload_row (CsvRow.Build "O'Brien" 40)
              (upload_row (CsvRow.Build "Alice" 30) (SessionLocal empty_database)).2).2
           eq_refl eq_refl eq_refl).
Defined.

(** A row with a quote in its name stops the batch: the row after it is never
    looked up, the insert before it is dropped, and the answer is the 500
    error. And the answer of a batch that goes through is the same message
    whatever the rows were. *)
Lemma upload_aborts_on_a_row :
  call (upload_users with_quote) empty_database
  = (Raise internal_error, Database [] 2,
     [Executed (plain "SELECT 1 FROM users WHERE name = 'Alice'");
      Executed (plain "INSERT INTO users (name, age) VALUES ('Alice', 30)");
      Executed (plain "SELECT 1 FROM users WHERE name = 'O'Brien'");
      Closed])
  ∧ (call (upload_users []) empty_database).1.1
    = (call (upload_users [CsvRow.Build "Alice" 30; CsvRow.Build "Alice" 40]) empty_database).1.1.
Proof. split; vm_compute; reflexivity. Qed.

(** C2, amended. The rows are taken in input order, each opening with its
    lookup. Either every row goes through, and the answer is the one fixed
    message; or the loop stops at the first row that raises, the rows after
    it are not looked at, the stored rows stay those from before the batch
    and the answer is the 500 error. *)
Theorem upload_stops_at_first_error (csv_data : list CsvRow.t) (d : database) :
  (∃ s, for_each csv_data upload_row (SessionLocal d) = (Return (), s)
        ∧ lookups (trace s) = (λ row, select_query (CsvRow.Name row)) <$> csv_data
        ∧ call (upload_users csv_data) d
          = (Return uploaded, Database (rows s) (id_seq s),
             (trace s ++ [Committed; Closed])%list))
  ∨ (∃ done row rest s1 e s2,
        csv_data = (done ++ row :: rest)%list
        ∧ for_each done upload_row (SessionLocal d) = (Return (), s1)
        ∧ upload_row row s1 = (Raise e, s2)
        ∧ lookups (trace s2)
          = (λ row, select_query (CsvRow.Name row)) <$> (done ++ [row])%list
        ∧ call (upload_users csv_data) d
          = (Raise internal_error, Database (users d) (id_seq s2),
             (trace s2 ++ [Closed])%list)).
Proof.
  destruct (for_each_stops csv_data upload_row (SessionLocal d))
    as [[s Hall]|(done & row & rest & s1 & e & s2 & -> & Hdone & Hrow & Hloop)].
  - left. exists s. split; [exact Hall|]. split.
    + now rewrite (for_each_lookups _ _ _ Hall).
    + now rewrite upload_users_call, Hall.
  - right. exists done, row, rest, s1, e, s2.
    repeat split; try assumption.
    + rewrite (upload_row_lookups _ _ _ _ Hrow), (for_each_lookups _ _ _ Hdone).
      now rewrite fmap_app.
    + now rewrite upload_users_call, Hloop.
Qed.

(** The batch of four rows leaves three records, Bob with age 999 among
    them. *)
Lemma upload_batch_stores_unchecked_rows :
  let r := call (upload_users batch) empty_database in
  r.1.1 = Return uploaded
  ∧ User.Build 3 "Bob" 999 ∈ users r.1.2
  ∧ length (users r.1.2) = 3%nat
  ∧ ¬ (∃ u, users r.1.2 = [u]).
Proof.
  set (r := call (upload_users batch) empty_database).
  vm_compute in r. subst r. cbn [fst snd users].
  split; [vm_compute; reflexivity|]. split; [|split].
  - rewrite !elem_of_cons. auto.
  - reflexivity.
  - intros [u H]. discriminate.
Qed.

(** C1, amended. On the batch of four rows against the empty database the
    first row is inserted and the second, of the same name, is looked up and
    not inserted; the answer is the one upload message, and of the name
    Alice exactly one record is stored, with age 30. *)
Theorem upload_batch_one_Alice :
  for_each (take 2 batch) upload_row (SessionLocal empty_database)
  = (Return (),
     MkSession [] [User.Build 1 "Alice" 30] 2 []
       [Executed (plain "SELECT 1 FROM users WHERE name = 'Alice'");
        Executed (plain "INSERT INTO users (name, age) VALUES ('Alice', 30)");
        Executed (plain "SELECT 1 FROM users WHERE name = 'Alice'")])
  ∧ (call (upload_users batch) empty_database).1.1 = Return uploaded
  ∧ where_name "Alice" (users (call (upload_users batch) empty_database).1.2)
    = [User.Build 1 "Alice" 30].
Proof. repeat split; vm_compute; reflexivity. Qed.

(** Every statement the batch import executes is a text put together from a
    row: the lookup text or the insert text of that row. *)
Lemma upload_row_statements row s o s' :
  upload_row row s = (o, s') →
  ∃ evs, trace s' = (trace s ++ evs)%list ∧ Forall (assembled_from [row]) evs.
Proof.
  rewrite upload_row_cases. intros H.
  assert (Hrow : row ∈ [row]) by (apply elem_of_cons; now left).
  destruct (has_quote _); [|destruct (negb (bool_decide _)); [|destruct (negb (int4 _))]];
    inversion H; subst; clear H; simpl; rewrite <- ?app_assoc;
    eexists; (split; [reflexivity|]);
    repeat (apply Forall_cons; split; [exists row; auto|]); apply Forall_nil_2.
Qed.

Lemma assembled_from_mono csv_data csv_data' e :
  (∀ row, row ∈ csv_data → row ∈ csv_data') →
  assembled_from csv_data e → assembled_from csv_data' e.
Proof. intros Hsub (row & Hrow & He). exists row. auto. Qed.

Lemma for_each_statements csv_data s o s' :
  for_each csv_data upload_row s = (o, s') →
  ∃ evs, trace s' = (trace s ++ evs)%list ∧ Forall (assembled_from csv_data) evs.
Proof.
  revert s. induction csv_data as [|row csv_data IH]; intros s H.
  - inversion H; subst. exists []. now rewrite app_nil_r.
  - rewrite for_each_cons in H.
    destruct (upload_row row s) as [o1 s1] eqn:Hrow.
    apply upload_row_statements in Hrow as (evs1 & Ht1 & Hf1).
    assert (Hf1' : Forall (assembled_from (row :: csv_data)) evs1).
    { eapply Forall_impl; [exact Hf1|]. intros e. apply assembled_from_mono.
      intros r Hr. apply elem_of_cons. left. now apply list_elem_of_singleton in Hr. }
    destruct o1 as [[]|e1].
    + apply IH in H as (evs2 & Ht2 & Hf2).
      exists (evs1 ++ evs2)%list. split; [now rewrite Ht2, Ht1, app_assoc|].
      apply Forall_app. split; [exact Hf1'|].
      eapply Forall_impl; [exact Hf2|]. intros e. apply assembled_from_mono.
      intros r Hr. apply elem_of_cons. now right.
    + inversion H; subst. eauto.
Qed.

Lemma upload_users_statements csv_data d q :
  Executed q ∈ (call (upload_users csv_data) d).2 →
  ∃ row, row ∈ csv_data
         ∧ (q = plain (select_query (CsvRow.Name row))
            ∨ q = plain (insert_query (CsvRow.Name row) (CsvRow.Age row))).
Proof.
  rewrite upload_users_call.
  destruct (for_each csv_data upload_row (SessionLocal d)) as [o s] eqn:Hloop.
  apply for_each_statements in Hloop as (evs & Ht & Hf). simpl in Ht. subst.
  rewrite Forall_forall in Hf.
  assert (Hin : Executed q ∈ trace s → ∃ row, row ∈ csv_data
            ∧ (q = plain (select_query (CsvRow.Name row))
               ∨ q = plain (insert_query (CsvRow.Name row) (CsvRow.Age row)))).
  { intros He. destruct (Hf _ He) as (row & Hrow & [[= ->]|[= ->]]); eauto. }
  destruct o as [[]|e]; simpl; rewrite elem_of_app, !elem_of_cons, elem_of_nil;
    intros [H|H]; auto; destruct H as [H|H]; try discriminate;
    try (destruct H as [H|H]; try discriminate); contradiction.
Qed.

(** C9, at a name with a quote. [upload_users] splices the name into the
    statement text, the engine cannot read the text, and the batch ends in
    the 500 error; [create_user] hands the same name over beside the text and
    stores it. *)
Theorem upload_splices_name_into_text :
  call (upload_users [CsvRow.Build "O'Brien" 40]) empty_database
  = (Raise internal_error, empty_database,
     [Executed (plain "SELECT 1 FROM users WHERE name = 'O'Brien'"); Closed])
  ∧ call (create_user (UserCreate.Build "O'Brien" 40)) empty_database
    = (Return (created "O'Brien"), Database [User.Build 1 "O'Brien" 40] 2,
       [Executed (text by_name {[ "name" := VStr "O'Brien" ]});
        Executed (text orm_insert {[ "name" := VStr "O'Brien"; "age" := VInt 40 ]});
        Committed; Closed]).
Proof. split; vm_compute; reflexivity. Qed.

(** ** Average age by group *)

Lemma ages_of_cons k n a user_data :
  ages_of k ((n, a) :: user_data)
  = if decide (group n = Some k) then a :: ages_of k user_data else ages_of k user_data.
Proof.
  unfold ages_of. destruct (decide (group n = Some k)) as [H|H].
  - now rewrite filter_cons_True by exact H.
  - now rewrite filter_cons_False by exact H.
Qed.

Lemma groupby_cons n a user_data :
  groupby ((n, a) :: user_data)
  = match group n with
    | Some k => <[k := a :: default [] (groupby user_data !! k)]> (groupby user_data)
    | None => groupby user_data
    end.
Proof. reflexivity. Qed.

Lemma groupby_lookup user_data k :
  groupby user_data !! k
  = if bool_decide (ages_of k user_data = []) then None else Some (ages_of k user_data).
Proof.
  induction user_data as [|[n a] user_data IH]; [reflexivity|].
  rewrite groupby_cons, ages_of_cons.
  destruct (group n) as [k'|] eqn:Hk.
  - destruct (decide (k' = k)) as [->|Hne].
    + rewrite lookup_insert_eq, decide_True by reflexivity.
      rewrite IH. now case_bool_decide as H; [rewrite H|].
    + rewrite lookup_insert_ne by assumption.
      rewrite decide_False by congruence. exact IH.
  - rewrite decide_False by congruence. exact IH.
Qed.

Lemma ages_of_users k us :
  ages_of k ((λ row, (User.name row, User.age row)) <$> us)
  = User.age <$> filter (λ u, group (User.name u) = Some k) us.
Proof.
  induction us as [|u us IH]; [reflexivity|].
  rewrite fmap_cons, ages_of_cons, IH.
  destruct (decide (group (User.name u) = Some k)) as [H|H].
  - now rewrite filter_cons_True by exact H.
  - now rewrite filter_cons_False by exact H.
Qed.

(** *** The quotient in [float64] *)

Lemma up_pos k : 0 < up k.
Proof. unfold up. apply Z.pow_pos_nonneg; lia. Qed.

Lemma up_ratio k : up k = 2 ^ k * up (- k) ∨ (k < 0 ∧ up k = 1).
Proof.
  unfold up. destruct (Z.le_gt_cases 0 k) as [H|H].
  - left. replace (Z.max 0 k) with k by lia. replace (Z.max 0 (- k)) with 0 by lia.
    simpl. lia.
  - right. split; [exact H|]. now replace (Z.max 0 k) with 0 by lia.
Qed.

(* 2^j * up (-j) ... : up k * up (- j) = 2 ^ (k - j) * up j * up (- k) when j <= k *)
Lemma up_shift k j :
  j <= k -> up k * up (- j) = 2 ^ (k - j) * (up j * up (- k)).
Proof.
  intros Hjk. unfold up.
  destruct (Z.le_gt_cases 0 j) as [Hj|Hj]; destruct (Z.le_gt_cases 0 k) as [Hk|Hk]; try lia.
  - replace (Z.max 0 k) with k by lia. replace (Z.max 0 (- j)) with 0 by lia.
    replace (Z.max 0 j) with j by lia. replace (Z.max 0 (- k)) with 0 by lia.
    rewrite ?Z.pow_0_r, ?Z.mul_1_r, ?Z.mul_1_l; rewrite <- Z.pow_add_r by lia; f_equal; lia.
  - replace (Z.max 0 k) with k by lia. replace (Z.max 0 (- j)) with (- j) by lia.
    replace (Z.max 0 j) with 0 by lia. replace (Z.max 0 (- k)) with 0 by lia.
    rewrite ?Z.pow_0_r, ?Z.mul_1_r, ?Z.mul_1_l; rewrite <- Z.pow_add_r by lia; f_equal; lia.
  - replace (Z.max 0 k) with 0 by lia. replace (Z.max 0 (- j)) with (- j) by lia.
    replace (Z.max 0 j) with 0 by lia. replace (Z.max 0 (- k)) with (- k) by lia.
    rewrite ?Z.pow_0_r, ?Z.mul_1_r, ?Z.mul_1_l; rewrite <- Z.pow_add_r by lia; f_equal; lia.
Qed.

Lemma nearest_even_spec a b :
  0 < b -> 2 * Z.abs (nearest_even a b * b - a) <= b.
Proof.
  intros Hb. unfold nearest_even.
  pose proof (Z.div_mod a b ltac:(lia)) as Hdm.
  pose proof (Z.mod_pos_bound a b Hb) as Hmod.
  destruct (Z.compare_spec (2 * (a mod b)) b) as [H|H|H];
    [destruct (Z.even (a / b))| |]; lia.
Qed.

(* the scaled value at the exponent is at least 2^52 *)
Lemma exponent_lower a b :
  0 < a -> 0 < b ->
  b * up (exponent a b) * 2 ^ 52 <= a * up (- exponent a b).
Proof.
  intros Ha Hb. unfold exponent.
  set (l := Z.log2 a - Z.log2 b).
  assert (Hfl : exists fl, (if b * up l <=? a * up (- l) then l else l - 1) = fl
                           ∧ b * up fl <= a * up (- fl)).
  { destruct (Z.leb_spec (b * up l) (a * up (- l))) as [H|H].
    - exists l. now split.
    - exists (l - 1). split; [reflexivity|].
      pose proof (Z.log2_spec a Ha) as [Hla _].
      pose proof (Z.log2_spec b Hb) as [_ Hlb].
      pose proof (Z.log2_nonneg a). pose proof (Z.log2_nonneg b).
      assert (Heq : 2 ^ (Z.succ (Z.log2 b)) * up (l - 1) = 2 ^ Z.log2 a * up (- (l - 1))).
      { unfold up. destruct (Z.le_gt_cases 0 (l - 1)) as [Hs|Hs].
        - replace (Z.max 0 (l - 1)) with (l - 1) by lia.
          replace (Z.max 0 (- (l - 1))) with 0 by lia.
          rewrite ?Z.pow_0_r, ?Z.mul_1_r, ?Z.mul_1_l; rewrite <- Z.pow_add_r by lia; f_equal; lia.
        - replace (Z.max 0 (l - 1)) with 0 by lia.
          replace (Z.max 0 (- (l - 1))) with (- (l - 1)) by lia.
          rewrite ?Z.pow_0_r, ?Z.mul_1_r, ?Z.mul_1_l; rewrite <- Z.pow_add_r by lia; f_equal; lia. }
      pose proof (up_pos (l - 1)). pose proof (up_pos (- (l - 1))).
      nia. }
  destruct Hfl as (fl & -> & Hfl).
  pose proof (up_shift fl (fl - 52) ltac:(lia)) as Hs.
  replace (fl - (fl - 52)) with 52 in Hs by lia.
  pose proof (up_pos fl). pose proof (up_pos (- fl)).
  pose proof (up_pos (fl - 52)). pose proof (up_pos (- (fl - 52))).
  assert (b * up fl * up (- (fl - 52)) <= a * up (- fl) * up (- (fl - 52))) as Hmul by nia.
  replace (b * up fl * up (- (fl - 52))) with (b * (up fl * up (- (fl - 52)))) in Hmul by ring.
  rewrite Hs in Hmul.
  apply (Z.mul_le_mono_pos_r _ _ (up (- fl))); [assumption|]. nia.
Qed.


Lemma nearest_even_ge a b K : 0 < b -> K * b <= a -> K <= nearest_even a b.
Proof.
  intros Hb HK. pose proof (nearest_even_spec a b Hb) as H.
  destruct (Z.le_gt_cases K (nearest_even a b)) as [|Hlt]; [assumption|exfalso].
  assert ((nearest_even a b + 1) * b <= K * b) by (apply Z.mul_le_mono_nonneg_r; lia).
  lia.
Qed.

Lemma nearest_even_le a b K : 0 < b -> a <= K * b -> nearest_even a b <= K.
Proof.
  intros Hb HK. pose proof (nearest_even_spec a b Hb) as H.
  destruct (Z.le_gt_cases (nearest_even a b) K) as [|Hlt]; [assumption|exfalso].
  assert ((K + 1) * b <= nearest_even a b * b) by (apply Z.mul_le_mono_nonneg_r; lia).
  lia.
Qed.

Lemma up_nonpos k : k <= 0 -> up k = 1.
Proof. intros H. unfold up. now replace (Z.max 0 k) with 0 by lia. Qed.

Lemma up_ge_2 k : 0 < k -> 2 <= up k.
Proof.
  intros H. unfold up. replace (Z.max 0 k) with (1 + (k - 1)) by lia.
  rewrite Z.pow_add_r by lia.
  pose proof (Z.pow_pos_nonneg 2 (k - 1) ltac:(lia) ltac:(lia)). lia.
Qed.

(* rounding a positive value: bounds by integers up to 2^53 are kept *)
Lemma round_pos_bounds a b L :
  0 < a -> 0 < b -> 0 <= L <= 2 ^ 53 ->
  let e := exponent a b in
  let m := nearest_even (a * up (- e)) (b * up e) in
  (L * b <= a -> L * up (- e) <= m * up e)
  ∧ (a <= L * b -> m * up e <= L * up (- e)).
Proof.
  intros Ha Hb HL e m.
  pose proof (up_pos e) as HP. pose proof (up_pos (- e)) as HN.
  pose proof (exponent_lower a b Ha Hb) as K1. fold e in K1.
  pose proof (nearest_even_spec (a * up (- e)) (b * up e) ltac:(lia)) as K2. fold m in K2.
  change (2 ^ 53) with (2 * 2 ^ 52) in HL.
  assert (HT0 : 0 < 2 ^ 52) by lia.
  set (T := 2 ^ 52) in *. clearbody T.
  destruct (Z.le_gt_cases e 0) as [He|He].
  - subst m. rewrite (up_nonpos e He) in *. rewrite !Z.mul_1_r in *.
    set (N := up (- e)) in *. clearbody N. clear K1 K2.
    split; intros H.
    + apply nearest_even_ge; [lia|].
      replace (L * N * b) with (L * b * N) by lia.
      apply Z.mul_le_mono_nonneg_r; lia.
    + apply nearest_even_le; [lia|].
      replace (L * N * b) with (L * b * N) by lia.
      apply Z.mul_le_mono_nonneg_r; lia.
  - subst m. rewrite (up_nonpos (- e)) in * by lia. rewrite !Z.mul_1_r in *.
    pose proof (up_ge_2 e He) as HP2.
    set (P := up e) in *. clearbody P.
    set (m := nearest_even a (b * P)) in *.
    assert (Hm : T <= m).
    { apply nearest_even_ge; [lia|]. lia. }
    clearbody m. clear e He.
    split; intros H.
    + assert (T * 2 <= m * P) by (apply Z.mul_le_mono_nonneg; lia). lia.
    + assert (HbP : b * 2 * T <= b * P * T).
      { apply Z.mul_le_mono_nonneg_r; [lia|]. apply Z.mul_le_mono_nonneg_l; lia. }
      assert (HLb : L * b <= 2 * T * b) by (apply Z.mul_le_mono_nonneg_r; lia).
      assert (Ha2 : a = 2 * T * b) by lia.
      assert (HL2 : L = 2 * T).
      { apply (Z.mul_cancel_r _ _ b); lia. }
      assert (HP3 : P = 2).
      { assert (b * P * T <= b * 2 * T) by lia.
        assert (b * P <= b * 2) by (apply (Z.mul_le_mono_pos_r _ _ T); lia).
        assert (P <= 2) by (apply (Z.mul_le_mono_pos_l _ _ b); lia). lia. }
      subst a L P.
      (* 2 * |m * (b*2) - 2*T*b| <= b*2, hence m = T *)
      assert (m = T).
      { assert (Hd : m * (b * 2) - 2 * T * b = (m - T) * (2 * b)) by lia.
        rewrite Hd in K2. rewrite Z.abs_mul in K2.
        replace (Z.abs (2 * b)) with (2 * b) in K2 by lia.
        destruct (Z.eq_dec m T) as [|Hne]; [assumption|exfalso].
        assert (1 <= Z.abs (m - T)) by lia.
        assert (1 * (2 * b) <= Z.abs (m - T) * (2 * b))
          by (apply Z.mul_le_mono_nonneg_r; lia).
        lia. }
      subst m. lia.
Qed.

Lemma round64_between (lo hi : Z) (q : Q) :
  - 2 ^ 53 <= lo -> hi <= 2 ^ 53 ->
  (inject_Z lo <= q <= inject_Z hi)%Q ->
  (inject_Z lo <= round64 q <= inject_Z hi)%Q.
Proof.
  intros Hlo Hhi. destruct q as [a b]. unfold round64. cbn [Qnum Qden].
  unfold Qle at 1 2. cbn [Qnum Qden inject_Z]. rewrite !Z.mul_1_r.
  intros [HL HH].
  assert (HB : 0 < Z.pos b) by lia.
  destruct (Z.eqb_spec a 0) as [->|Ha].
  - unfold Qle. cbn. nia.
  - set (e := exponent (Z.abs a) (Z.pos b)).
    set (m := nearest_even (Z.abs a * up (- e)) (Z.pos b * up e)).
    rewrite Qred_correct.
    pose proof (up_pos e) as HP. pose proof (up_pos (- e)) as HN.
    unfold Qle. cbn [Qnum Qden inject_Z]. rewrite !Z.mul_1_r, Z2Pos.id by exact HN.
    assert (Habs : 0 < Z.abs a) by lia.
    pose proof (round_pos_bounds (Z.abs a) (Z.pos b) 0 Habs HB ltac:(lia)) as [H0 _].
    cbn zeta in H0. fold e m in H0. specialize (H0 ltac:(lia)). rewrite Z.mul_0_l in H0.
    destruct (Z.lt_trichotomy a 0) as [Hneg|[?|Hpos]]; [|contradiction|].
    + (* a < 0 *)
      replace (Z.sgn a) with (-1) by (destruct a; try lia; reflexivity).
      assert (Hlo' : lo < 0) by nia.
      pose proof (round_pos_bounds (Z.abs a) (Z.pos b) (- lo) Habs HB ltac:(lia)) as [_ Hup].
      cbn zeta in Hup. fold e m in Hup. specialize (Hup ltac:(lia)).
      split; [lia|].
      destruct (Z.le_gt_cases 0 hi) as [Hh|Hh]; [nia|].
      pose proof (round_pos_bounds (Z.abs a) (Z.pos b) (- hi) Habs HB ltac:(nia)) as [Hdn _].
      cbn zeta in Hdn. fold e m in Hdn. specialize (Hdn ltac:(lia)). lia.
    + (* 0 < a *)
      replace (Z.sgn a) with 1 by (destruct a; try lia; reflexivity).
      assert (Hhi' : 0 < hi) by nia.
      pose proof (round_pos_bounds (Z.abs a) (Z.pos b) hi Habs HB ltac:(lia)) as [_ Hup].
      cbn zeta in Hup. fold e m in Hup. specialize (Hup ltac:(lia)).
      split; [|lia].
      destruct (Z.le_gt_cases lo 0) as [Hl|Hl]; [nia|].
      pose proof (round_pos_bounds (Z.abs a) (Z.pos b) lo Habs HB ltac:(nia)) as [Hdn _].
      cbn zeta in Hdn. fold e m in Hdn. specialize (Hdn ltac:(lia)). lia.
Qed.

(** Five thirds, and a sum that is a multiple of the count. *)
Example mean_rounds :
  mean [1; 2; 2] = Qmake 7505999378950827 4503599627370496 ∧ mean [30; 10] = 20%Q.
Proof. split; vm_compute; reflexivity. Qed.

(** The two ways an average request can go. *)
Lemma get_average_age_by_group_cases d :
  call get_average_age_by_group d =
    if bool_decide (users d = []) then (Raise NoRecords, d, [by_group; Closed])
    else (Return (mean <$> groupby ((λ row, (User.name row, User.age row)) <$> users d)),
          d, [by_group; Closed]).
Proof.
  destruct d as [us seq].
  unfold call, get_average_age_by_group, try_finally, try_except.
  unfold mbind, M_bind, fmap at 1, M_fmap, execute.
  change (run (text "SELECT name, age FROM users" ∅)) with select_all.
  cbn. case_bool_decide; reflexivity.
Qed.



(** * Further properties of the handlers *)

(** ** Listing *)

Lemma get_users_cases d :
  call get_users d
  = (Return (users d), d, [Executed (text "SELECT * FROM users" ∅); Closed]).
Proof.
  destruct d as [us seq].
  unfold call, get_users, try_finally, try_except.
  unfold mbind, M_bind, fmap, M_fmap, execute.
  change (run (text "SELECT * FROM users" ∅)) with select_all.
  reflexivity.
Qed.

Lemma where_name_removed n us : where_name n (filter (λ u, User.name u ≠ n) us) = [].
Proof.
  unfold where_name. induction us as [|u us IH]; [reflexivity|].
  destruct (decide (User.name u = n)) as [H|H].
  - now rewrite filter_cons_False by (intros Hne; now apply Hne).
  - rewrite filter_cons_True by exact H.
    now rewrite filter_cons_False by exact H.
Qed.

Lemma where_name_other n m us :
  m ≠ n → where_name m (filter (λ u, User.name u ≠ n) us) = where_name m us.
Proof.
  intros Hmn. unfold where_name. induction us as [|u us IH]; [reflexivity|].
  destruct (decide (User.name u = n)) as [H|H].
  - rewrite filter_cons_False by (intros Hne; now apply Hne).
    rewrite (filter_cons_False _ u) by congruence. exact IH.
  - rewrite filter_cons_True by exact H.
    destruct (decide (User.name u = m)) as [Hm|Hm].
    + rewrite !filter_cons_True by exact Hm. now rewrite IH.
    + rewrite !filter_cons_False by exact Hm. exact IH.
Qed.

Lemma filter_absent_name n us :
  where_name n us = [] → filter (λ u, User.name u ≠ n) us = us.
Proof.
  unfold where_name. induction us as [|u us IH]; [reflexivity|].
  destruct (decide (User.name u = n)) as [H|H].
  - rewrite filter_cons_True by exact H. discriminate.
  - rewrite filter_cons_False by exact H. intros Hus.
    rewrite filter_cons_True by exact H. now rewrite IH.
Qed.

(** X1. A candidate that the validator accepts, whose name the driver takes
    (it holds no character of code 0) and no stored row has, and whose age
    fits the column, is created, and a list request after it returns the
    rows from before followed by the new row: exactly one row of that name,
    with that age. *)
Theorem create_then_list (candidate : UserCreate.t) (d : database) :
  validate candidate = Valid →
  has_nul (UserCreate.name candidate) = false →
  where_name (UserCreate.name candidate) (users d) = [] →
  int4 (UserCreate.age candidate) = true →
  let row := User.Build (users_id_seq d) (UserCreate.name candidate)
               (UserCreate.age candidate) in
  ∃ d1 tr,
    call (create_user candidate) d = (Return (created (UserCreate.name candidate)), d1, tr)
    ∧ (call get_users d1).1 = (Return (users d ++ [row])%list, d1)
    ∧ where_name (UserCreate.name candidate) (users d ++ [row]) = [row].
Proof.
  intros Hvalid _ Hfree Hfits row. rewrite create_user_cases.
  unfold validate in Hvalid. subst row.
  destruct candidate as [name age]; cbn [UserCreate.name UserCreate.age] in *.
  case_bool_decide; [discriminate|].
  destruct (120 <? age); [discriminate|].
  rewrite bool_decide_eq_true_2 by assumption. cbn [negb]. rewrite Hfits.
  eexists _, _. split; [reflexivity|]. rewrite get_users_cases.
  split; [reflexivity|]. now apply where_name_snoc.
Qed.

Lemma create_then_list_witness :
  ∃ d1 tr,
    call (create_user (UserCreate.Build "Carol" 41)) alice_amy_bob
    = (Return (created "Carol"), d1, tr)
    ∧ (call get_users d1).1
      = (Return (users alice_amy_bob ++ [User.Build 4 "Carol" 41])%list, d1)
    ∧ where_name "Carol" (users alice_amy_bob ++ [User.Build 4 "Carol" 41])
      = [User.Build 4 "Carol" 41].
Proof.
  apply (create_then_list (UserCreate.Build "Carol" 41) alice_amy_bob); reflexivity.
Defined.

(** X2. After a delete that succeeded no row of that name is stored, the rows
    of every other name are as before, a list request returns the remaining
    rows in their order, and a second delete of the name fails with
    [NotFound] and changes nothing. *)
Theorem delete_then_absent (name : string) (d d1 : database)
    (answer : gmap string string) (tr : list event) :
  call (delete_user name) d = (Return answer, d1, tr) →
  where_name name (users d1) = []
  ∧ (∀ other, other ≠ name → where_name other (users d1) = where_name other (users d))
  ∧ (call get_users d1).1.1 = Return (filter (λ u, User.name u ≠ name) (users d))
  ∧ (call (delete_user name) d1).1 = (Raise NotFound, d1).
Proof.
  rewrite delete_user_cases. case_bool_decide; [discriminate|].
  intros [= _ <- _]. rewrite get_users_cases, delete_user_cases. cbn [users fst snd].
  split; [apply where_name_removed|].
  split; [intros other Hne; now apply where_name_other|].
  split; [reflexivity|].
  now rewrite where_name_removed, bool_decide_eq_true_2 by reflexivity.
Qed.

Lemma delete_then_absent_witness :
  where_name "Amy" [User.Build 1 "Alice" 30; User.Build 3 "Bob" 20] = []
  ∧ (call (delete_user "Amy") (Database [User.Build 1 "Alice" 30; User.Build 3 "Bob" 20] 4)).1
    = (Raise NotFound, Database [User.Build 1 "Alice" 30; User.Build 3 "Bob" 20] 4).
Proof.
  destruct (delete_then_absent "Amy" alice_amy_bob
              (Database [User.Build 1 "Alice" 30; User.Build 3 "Bob" 20] 4)
              (deleted "Amy")
              [Executed (text by_name {[ "name" := VStr "Amy" ]});
               Executed (text "DELETE FROM users WHERE name = :name" {[ "name" := VStr "Amy" ]});
               Committed; Closed])
    as (H1 & _ & _ & H2); [vm_compute; reflexivity|].
  split; [exact H1 | exact H2].
Defined.

(** X3. Create, then delete: when a create succeeded, deleting that name
    succeeds and the stored rows are again those from before the create. *)
Theorem create_then_delete (candidate : UserCreate.t) (d d1 : database)
    (answer : gmap string string) (tr : list event) :
  call (create_user candidate) d = (Return answer, d1, tr) →
  (call (delete_user (UserCreate.name candidate)) d1).1
  = (Return (deleted (UserCreate.name candidate)),
     Database (users d) (users_id_seq d + 1)).
Proof.
  rewrite create_user_cases. destruct candidate as [name age]; simpl.
  case_bool_decide; [discriminate|].
  destruct (120 <? age); [discriminate|].
  case_bool_decide as Hfree; simpl; [|discriminate].
  destruct (int4 age); [|discriminate].
  intros [= _ <- _]. rewrite delete_user_cases. simpl.
  rewrite (where_name_snoc _ _ _ _ Hfree). simpl.
  rewrite filter_app, (filter_absent_name _ _ Hfree).
  rewrite filter_cons_False by (intros Hne; now apply Hne).
  now rewrite filter_nil, app_nil_r.
Qed.

Lemma create_then_delete_witness :
  (call (delete_user "Al") (Database [User.Build 1 "Al" 3] 2)).1
  = (Return (deleted "Al"), Database [] 2).
Proof.
  apply (create_then_delete (UserCreate.Build "Al" 3) empty_database
           (Database [User.Build 1 "Al" 3] 2) (created "Al")
           [Executed (text by_name {[ "name" := VStr "Al" ]});
            Executed (text orm_insert {[ "name" := VStr "Al"; "age" := VInt 3 ]});
            Committed; Closed]).
  vm_compute. reflexivity.
Defined.

(** X4. For a name the driver takes (no character of code 0 in it), a create
    request succeeds exactly when the validator accepts the candidate, no
    stored row has its name, and its age fits the column. *)
Theorem create_succeeds_iff (candidate : UserCreate.t) (d : database) :
  has_nul (UserCreate.name candidate) = false →
  (∃ answer, (call (create_user candidate) d).1.1 = Return answer)
  ↔ validate candidate = Valid
    ∧ where_name (UserCreate.name candidate) (users d) = []
    ∧ int4 (UserCreate.age candidate) = true.
Proof.
  intros _. rewrite create_user_cases. unfold validate.
  destruct candidate as [name age]; simpl.
  case_bool_decide; simpl; [split; [intros [? [=]] | intros ([=] & _)]|].
  destruct (120 <? age); simpl; [split; [intros [? [=]] | intros ([=] & _)]|].
  case_bool_decide; simpl; [|split; [intros [? [=]] | intros (_ & ? & _); contradiction]].
  destruct (int4 age); simpl; [split; eauto|].
  split; [intros [? [=]] | intros (_ & _ & [=])].
Qed.

Lemma create_succeeds_iff_witness :
  ∃ answer, (call (create_user (UserCreate.Build "Carol" 41)) alice_amy_bob).1.1
            = Return answer.
Proof.
  apply (create_succeeds_iff (UserCreate.Build "Carol" 41) alice_amy_bob);
    [reflexivity|]. repeat split.
Defined.

(** ** Names stay unique *)

Lemma where_name_nil_iff n us : where_name n us = [] ↔ n ∉ User.name <$> us.
Proof.
  unfold where_name. induction us as [|u us IH]; simpl.
  - split; [intros _; apply not_elem_of_nil | reflexivity].
  - rewrite not_elem_of_cons. destruct (decide (User.name u = n)) as [H|H].
    + rewrite filter_cons_True by exact H. split; [discriminate|].
      intros [Hne _]. congruence.
    + rewrite filter_cons_False by exact H. rewrite IH. split; [|tauto].
      intros Hn. split; [congruence | exact Hn].
Qed.

Lemma unique_names_snoc us i n a :
  unique_names us → where_name n us = [] → unique_names (us ++ [User.Build i n a]).
Proof.
  unfold unique_names. intros Hus Hfree. rewrite fmap_app. apply NoDup_app.
  split; [exact Hus|]. split; [|apply NoDup_singleton].
  intros m Hm Hin. apply list_elem_of_singleton in Hin. simpl in Hin. subst m.
  now apply where_name_nil_iff in Hfree.
Qed.

Lemma unique_names_filter (P : User.t → Prop) `{∀ u, Decision (P u)} us :
  unique_names us → unique_names (filter P us).
Proof.
  unfold unique_names. intros Hus.
  eapply sublist_NoDup; [exact Hus | apply fmap_sublist, sublist_filter].
Qed.

Lemma upload_row_unique row s o s' :
  upload_row row s = (o, s') → unique_names (rows s) → unique_names (rows s').
Proof.
  rewrite upload_row_cases. intros H Hus.
  destruct (has_quote _); [now inversion H; subst|].
  case_bool_decide as Hfree; simpl in H; [|now inversion H; subst].
  destruct (negb (int4 _)); inversion H; subst; simpl; [exact Hus|].
  now apply unique_names_snoc.
Qed.

Lemma for_each_unique csv_data s o s' :
  for_each csv_data upload_row s = (o, s') →
  unique_names (rows s) → unique_names (rows s').
Proof.
  revert s. induction csv_data as [|row csv_data IH]; intros s H Hus.
  - now inversion H; subst.
  - rewrite for_each_cons in H.
    destruct (upload_row row s) as [[[]|e] s1] eqn:Hrow.
    + eapply IH; [exact H|]. eapply upload_row_unique; eauto.
    + inversion H; subst. eapply upload_row_unique; eauto.
Qed.

(** X5. If no two stored rows share a name, this is still so after a create
    request, after a delete request and after a batch import, whether the
    request succeeds or fails. *)
Theorem names_stay_unique (d : database) (candidate : UserCreate.t) (name : string)
    (csv_data : list CsvRow.t) :
  unique_names (users d) →
  unique_names (users (call (create_user candidate) d).1.2)
  ∧ unique_names (users (call (delete_user name) d).1.2)
  ∧ unique_names (users (call (upload_users csv_data) d).1.2).
Proof.
  intros Hus. split; [|split].
  - rewrite create_user_cases. destruct candidate as [cname age]; simpl.
    case_bool_decide; [exact Hus|].
    destruct (120 <? age); [exact Hus|].
    case_bool_decide; simpl; [|exact Hus].
    destruct (int4 age); simpl; [|exact Hus].
    now apply unique_names_snoc.
  - rewrite delete_user_cases. case_bool_decide; simpl; [exact Hus|].
    now apply unique_names_filter.
  - rewrite upload_users_call.
    destruct (for_each csv_data upload_row (SessionLocal d)) as [[[]|e] s] eqn:Hloop;
      simpl; [|exact Hus].
    eapply for_each_unique; [exact Hloop | exact Hus].
Qed.

Lemma names_stay_unique_witness :
  unique_names (users (call (create_user (UserCreate.Build "Carol" 41)) alice_amy_bob).1.2)
  ∧ unique_names (users (call (delete_user "Amy") alice_amy_bob).1.2)
  ∧ unique_names (users (call (upload_users batch) alice_amy_bob).1.2).
Proof.
  apply names_stay_unique. unfold unique_names, alice_amy_bob. simpl.
  repeat (apply NoDup_cons; split;
          [rewrite ?elem_of_cons, elem_of_nil; intros H;
           repeat (destruct H as [H|H]; [discriminate|]); exact H|]).
  apply NoDup_nil_2.
Defined.

(** ** What a batch import leaves behind *)

Lemma for_each_app_inv {A : Type} (xs ys : list A) body s s' :
  for_each (xs ++ ys) body s = (Return (), s') →
  ∃ s1, for_each xs body s = (Return (), s1) ∧ for_each ys body s1 = (Return (), s').
Proof.
  revert s. induction xs as [|x xs IH]; intros s H.
  - exists s. now split.
  - cbn [app] in H. rewrite for_each_cons in H. rewrite for_each_cons.
    destruct (body x s) as [[[]|e] s1]; [now apply IH | discriminate].
Qed.

Lemma where_name_app_nonempty n us added :
  where_name n us ≠ [] → where_name n (us ++ added) ≠ [].
Proof.
  unfold where_name. rewrite filter_app. intros H Happ.
  now apply app_eq_nil in Happ as [? _].
Qed.

Lemma upload_row_present row s s' :
  upload_row row s = (Return (), s') →
  has_quote (CsvRow.Name row) = false ∧ where_name (CsvRow.Name row) (rows s') ≠ [].
Proof.
  rewrite upload_row_cases. intros H.
  destruct (has_quote _); [discriminate|]. split; [reflexivity|].
  case_bool_decide as Hfree; simpl in H; [|now inversion H; subst].
  destruct (negb (int4 _)); [discriminate|]. inversion H; subst; simpl.
  now rewrite (where_name_snoc _ _ _ _ Hfree).
Qed.

Lemma for_each_present csv_data s s' :
  for_each csv_data upload_row s = (Return (), s') →
  Forall (λ row, has_quote (CsvRow.Name row) = false
                 ∧ where_name (CsvRow.Name row) (rows s') ≠ []) csv_data.
Proof.
  revert s. induction csv_data as [|row csv_data IH]; intros s H; [constructor|].
  rewrite for_each_cons in H.
  destruct (upload_row row s) as [[[]|e] s1] eqn:Hrow; [|discriminate].
  constructor; [|now apply (IH s1)].
  apply upload_row_present in Hrow as [Hq Hin]. split; [exact Hq|].
  apply for_each_grows in H as [_ _ [added ->] _].
  now apply where_name_app_nonempty.
Qed.




Lemma upload_row_other_names row s o s' n :
  upload_row row s = (o, s') → CsvRow.Name row ≠ n →
  where_name n (rows s') = where_name n (rows s).
Proof.
  rewrite upload_row_cases. intros H Hne.
  destruct (has_quote _); [now inversion H; subst|].
  destruct (negb (bool_decide _)); [now inversion H; subst|].
  destruct (negb (int4 _)); inversion H; subst; simpl; [reflexivity|].
  unfold where_name. rewrite filter_app, filter_cons_False by exact Hne.
  now rewrite filter_nil, app_nil_r.
Qed.

Lemma for_each_other_names csv_data s o s' n :
  for_each csv_data upload_row s = (o, s') →
  Forall (λ row, CsvRow.Name row ≠ n) csv_data →
  where_name n (rows s') = where_name n (rows s).
Proof.
  revert s. induction csv_data as [|row csv_data IH]; intros s H Hall.
  - now inversion H; subst.
  - apply Forall_cons in Hall as [Hne Hall]. rewrite for_each_cons in H.
    destruct (upload_row row s) as [[[]|e] s1] eqn:Hrow.
    + rewrite (IH _ H Hall). eapply upload_row_other_names; eauto.
    + inversion H; subst. eapply upload_row_other_names; eauto.
Qed.

(** X7. The first row of a name wins. Let the names of a frame be inert
    (none holds a quote, a colon, a backslash, a percent sign or the character
    of code 0). When its import succeeded and a name was not stored before
    it, the one row stored under that name afterwards carries the age of the
    first row of the frame with that name; later rows of the name do not
    change it. *)
Theorem upload_first_row_wins (before after : list CsvRow.t) (row : CsvRow.t)
    (d d1 : database) (answer : gmap string string) (tr : list event) :
  Forall (λ r, inert (CsvRow.Name r) = true) (before ++ row :: after) →
  call (upload_users (before ++ row :: after)) d = (Return answer, d1, tr) →
  Forall (λ r, CsvRow.Name r ≠ CsvRow.Name row) before →
  where_name (CsvRow.Name row) (users d) = [] →
  ∃ i, where_name (CsvRow.Name row) (users d1)
       = [User.Build i (CsvRow.Name row) (CsvRow.Age row)].
Proof.
  intros _. rewrite upload_users_call.
  destruct (for_each _ upload_row (SessionLocal d)) as [[[]|e] s] eqn:Hloop; [|discriminate].
  intros [= _ <- _] Hbefore Hfree. cbn [users].
  apply for_each_app_inv in Hloop as (s1 & Hb & Hrest).
  rewrite for_each_cons in Hrest.
  destruct (upload_row row s1) as [[[]|e] s2] eqn:Hrow; [|discriminate].
  pose proof (for_each_other_names _ _ _ _ _ Hb Hbefore) as Hs1.
  cbn [SessionLocal rows] in Hs1. rewrite Hfree in Hs1.
  exists (id_seq s1). eapply for_each_keeps_one; [exact Hrest|].
  rewrite upload_row_cases in Hrow.
  destruct (has_quote _); [discriminate|].
  rewrite Hs1 in Hrow. simpl in Hrow.
  destruct (negb (int4 _)); [discriminate|].
  inversion Hrow; subst. simpl. now apply where_name_snoc.
Qed.

Lemma upload_first_row_wins_witness :
  ∃ i, where_name "Alice" (users (call (upload_users (take 2 batch)) empty_database).1.2)
       = [User.Build i "Alice" 30].
Proof.
  apply (upload_first_row_wins [] [CsvRow.Build "Alice" 40] (CsvRow.Build "Alice" 30)
           empty_database _ uploaded (call (upload_users (take 2 batch)) empty_database).2).
  - repeat constructor.
  - vm_compute. reflexivity.
  - constructor.
  - reflexivity.
Defined.

Lemma upload_row_added row s o s' :
  upload_row row s = (o, s') →
  ∃ added, rows s' = (rows s ++ added)%list ∧ Forall (row_of row) added.
Proof.
  rewrite upload_row_cases. intros H.
  destruct (has_quote _); [|destruct (negb (bool_decide _)); [|destruct (negb (int4 _))]];
    inversion H; subst; clear H; simpl;
    try (exists []; rewrite app_nil_r; now split).
  eexists. split; [reflexivity|]. repeat constructor.
Qed.

Lemma for_each_added csv_data s o s' :
  for_each csv_data upload_row s = (o, s') →
  ∃ added, rows s' = (rows s ++ added)%list
           ∧ Forall (λ u, ∃ row, row ∈ csv_data ∧ row_of row u) added.
Proof.
  revert s. induction csv_data as [|row csv_data IH]; intros s H.
  - inversion H; subst. exists []. now rewrite app_nil_r.
  - rewrite for_each_cons in H.
    destruct (upload_row row s) as [o1 s1] eqn:Hrow.
    apply upload_row_added in Hrow as (a1 & Hr1 & Hf1).
    assert (Hf1' : Forall (λ u, ∃ r, r ∈ row :: csv_data ∧ row_of r u) a1).
    { eapply Forall_impl; [exact Hf1|]. intros u Hu. exists row.
      split; [apply elem_of_cons; now left | exact Hu]. }
    destruct o1 as [[]|e1].
    + apply IH in H as (a2 & Hr2 & Hf2).
      exists (a1 ++ a2)%list. split; [now rewrite Hr2, Hr1, app_assoc|].
      apply Forall_app. split; [exact Hf1'|].
      eapply Forall_impl; [exact Hf2|]. intros u (r & Hr & Hu). exists r.
      split; [apply elem_of_cons; now right | exact Hu].
    + inversion H; subst. eauto.
Qed.

(** X8. Let the names of a frame be inert. Its import never changes or
    removes a row that was stored before it: afterwards the stored rows are
    the earlier ones, in their order, followed by added rows, and each added
    row carries the name and the age of a row of the frame. When the import
    succeeded, every name of the frame is stored. *)
Theorem upload_keeps_and_adds (csv_data : list CsvRow.t) (d : database) :
  Forall (λ r, inert (CsvRow.Name r) = true) csv_data →
  ∃ added,
    users (call (upload_users csv_data) d).1.2 = (users d ++ added)%list
    ∧ Forall (λ u, ∃ row, row ∈ csv_data ∧ row_of row u) added
    ∧ ((call (upload_users csv_data) d).1.1 = Return uploaded →
       Forall (λ row, where_name (CsvRow.Name row)
                        (users (call (upload_users csv_data) d).1.2) ≠ []) csv_data).
Proof.
  intros _. rewrite upload_users_call.
  destruct (for_each csv_data upload_row (SessionLocal d)) as [[[]|e] s] eqn:Hloop;
    cbn [fst snd users].
  - destruct (for_each_added _ _ _ _ Hloop) as (added & Hrows & Hadded).
    exists added. split; [exact Hrows|]. split; [exact Hadded|]. intros _.
    apply for_each_present in Hloop.
    eapply Forall_impl; [exact Hloop|]. now intros row [_ ?].
  - exists []. rewrite app_nil_r. split; [reflexivity|]. split; [constructor|].
    discriminate.
Qed.

Lemma upload_keeps_and_adds_witness :
  ∃ added,
    users (call (upload_users (take 2 batch)) alice_amy_bob).1.2
    = (users alice_amy_bob ++ added)%list
    ∧ Forall (λ row, where_name (CsvRow.Name row)
                (users (call (upload_users (take 2 batch)) alice_amy_bob).1.2) ≠ [])
        (take 2 batch).
Proof.
  destruct (upload_keeps_and_adds (take 2 batch) alice_amy_bob) as (added & H1 & _ & H2);
    [repeat constructor|].
  exists added. split; [exact H1|]. apply H2. vm_compute. reflexivity.
Defined.

(** X9. After the import of a frame of inert names that succeeded, a create
    request for the name of any of its rows, with a non-empty name and an
    age of at most 120, is answered with the conflict error and changes
    nothing. *)
Theorem upload_then_create_conflicts (csv_data : list CsvRow.t) (row : CsvRow.t)
    (age : Z) (d d1 : database) (answer : gmap string string) (tr : list event) :
  Forall (λ r, inert (CsvRow.Name r) = true) csv_data →
  call (upload_users csv_data) d = (Return answer, d1, tr) →
  row ∈ csv_data →
  CsvRow.Name row ≠ "" →
  age ≤ 120 →
  (call (create_user (UserCreate.Build (CsvRow.Name row) age)) d1).1 = (Raise Conflict, d1).
Proof.
  intros _. rewrite upload_users_call.
  destruct (for_each csv_data upload_row (SessionLocal d)) as [[[]|e] s] eqn:Hloop;
    [|discriminate].
  intros [= _ <- _] Hrow Hname Hage.
  apply for_each_present in Hloop. rewrite Forall_forall in Hloop.
  destruct (Hloop row Hrow) as [_ Hin].
  rewrite create_user_cases. cbn [UserCreate.name UserCreate.age users].
  rewrite bool_decide_eq_false_2 by exact Hname.
  destruct (Z.ltb_spec 120 age) as [?|_]; [lia|].
  now rewrite bool_decide_eq_false_2 by exact Hin.
Qed.

Lemma upload_then_create_conflicts_witness :
  (call (create_user (UserCreate.Build "Alice" 50)) (Database [User.Build 1 "Alice" 30] 2)).1
  = (Raise Conflict, Database [User.Build 1 "Alice" 30] 2).
Proof.
  apply (upload_then_create_conflicts (take 2 batch) (CsvRow.Build "Alice" 40) 50
           empty_database _ uploaded (call (upload_users (take 2 batch)) empty_database).2).
  - repeat constructor.
  - vm_compute. reflexivity.
  - cbn. rewrite !elem_of_cons. auto.
  - discriminate.
  - lia.
Defined.

Lemma inert_no_quote n : inert n = true → has_quote n = false.
Proof.
  induction n as [|c n IH]; [reflexivity|]. simpl. unfold special.
  destruct (Ascii.eqb c "'"); simpl; [discriminate|].
  intros H. apply andb_true_iff in H as [_ H]. now apply IH.
Qed.

(** X10. A frame of one row whose name is inert and is not stored, and whose
    age fits the column, is imported as that row: the lookup, the insert,
    one commit. Nothing else about the name or the age is asked. *)
Theorem upload_one_row (row : CsvRow.t) (d : database) :
  inert (CsvRow.Name row) = true →
  where_name (CsvRow.Name row) (users d) = [] →
  int4 (CsvRow.Age row) = true →
  call (upload_users [row]) d
  = (Return uploaded,
     Database (users d ++ [User.Build (users_id_seq d) (CsvRow.Name row) (CsvRow.Age row)])
       (users_id_seq d + 1),
     [Executed (plain (select_query (CsvRow.Name row)));
      Executed (plain (insert_query (CsvRow.Name row) (CsvRow.Age row)));
      Committed; Closed]).
Proof.
  intros Hq Hfree Hfits. apply inert_no_quote in Hq. rewrite upload_users_call.
  rewrite for_each_cons, upload_row_cases, Hq. cbn [SessionLocal rows].
  rewrite Hfree, Hfits. destruct d as [us seq]. reflexivity.
Qed.

Lemma upload_one_row_witness :
  call (upload_users [CsvRow.Build "Bob" 999]) empty_database
  = (Return uploaded, Database [User.Build 1 "Bob" 999] 2,
     [Executed (plain "SELECT 1 FROM users WHERE name = 'Bob'");
      Executed (plain "INSERT INTO users (name, age) VALUES ('Bob', 999)");
      Committed; Closed]).
Proof.
  apply (upload_one_row (CsvRow.Build "Bob" 999) empty_database); reflexivity.
Defined.

(** ** Reading, closing, failing *)

(** X11. A list request returns every stored row, in storage order, and it
    never fails; neither it nor the average request commits or changes the
    database, so asking again gives the same answer. *)
Theorem reads_change_nothing (d : database) :
  (call get_users d).1 = (Return (users d), d)
  ∧ commits (call get_users d).2 = 0%nat
  ∧ (call get_average_age_by_group d).1.2 = d
  ∧ commits (call get_average_age_by_group d).2 = 0%nat
  ∧ call get_users (call get_users d).1.2 = call get_users d
  ∧ call get_average_age_by_group (call get_average_age_by_group d).1.2
    = call get_average_age_by_group d.
Proof.
  rewrite get_users_cases, get_average_age_by_group_cases.
  case_bool_decide; cbn [fst snd];
    rewrite get_users_cases, get_average_age_by_group_cases;
    [rewrite bool_decide_eq_true_2 by assumption
    |rewrite bool_decide_eq_false_2 by assumption];
    repeat split; reflexivity.
Qed.

Ltac events_ok :=
  repeat (apply Forall_cons; split;
          [first [left; reflexivity | right; eexists; reflexivity]|]);
  apply Forall_nil_2.

Lemma closed_last_intro evs :
  Forall (λ e, e ≠ Closed) evs → closed_last (evs ++ [Closed]).
Proof. intros H. now exists evs. Qed.

(** X12. Every handler closes its session exactly once, as the last thing it
    does, whether it returns or raises. *)
Theorem session_always_closed (d : database) (candidate : UserCreate.t) (name : string)
    (csv_data : list CsvRow.t) :
  closed_last (call (create_user candidate) d).2
  ∧ closed_last (call (delete_user name) d).2
  ∧ closed_last (call get_users d).2
  ∧ closed_last (call (upload_users csv_data) d).2
  ∧ closed_last (call get_average_age_by_group d).2.
Proof.
  assert (Hsolve : ∀ evs, Forall (λ e, is_commit e = true ∨ ∃ q, e = Executed q) evs →
                          closed_last (evs ++ [Closed])).
  { intros evs H. apply closed_last_intro. eapply Forall_impl; [exact H|].
    intros e [He|[q ->]] Hc; [subst e|]; discriminate. }
  repeat split.
  - rewrite create_user_cases.
    repeat match goal with |- context [if ?b then _ else _] => destruct b end;
      cbn [snd];
      first [apply (Hsolve []) | apply (Hsolve [_]) | apply (Hsolve [_; _])
            | apply (Hsolve [_; _; _])];
      events_ok.
  - rewrite delete_user_cases. case_bool_decide; cbn [snd];
      first [apply (Hsolve [_]) | apply (Hsolve [_; _; _])]; events_ok.
  - rewrite get_users_cases. apply (Hsolve [_]). events_ok.
  - rewrite upload_users_call.
    destruct (for_each csv_data upload_row (SessionLocal d)) as [o s] eqn:Hloop.
    apply for_each_statements in Hloop as (evs & Ht & Hf). simpl in Ht. subst.
    assert (Hevs : Forall (λ e, is_commit e = true ∨ ∃ q, e = Executed q) (trace s)).
    { eapply Forall_impl; [exact Hf|]. intros e (row & _ & [->| ->]); eauto. }
    destruct o as [[]|e]; cbn [snd].
    + change [Committed; Closed] with ([Committed] ++ [Closed])%list.
      rewrite app_assoc. apply Hsolve, Forall_app. split; [exact Hevs|]. events_ok.
    + now apply Hsolve.
  - rewrite get_average_age_by_group_cases. case_bool_decide; cbn [snd];
      apply (Hsolve [_]); unfold by_group; events_ok.
Qed.

(** X13. No database exception leaves a handler: whatever a handler raises
    is an [HTTPException]. A create request fails only with one of its three
    rejections or the 500 error, a delete request only with [NotFound] or
    the 500 error, a batch import only with the 500 error, an average
    request only with [NoRecords] or the 500 error. *)
Theorem only_http_errors (d : database) (candidate : UserCreate.t) (name : string)
    (csv_data : list CsvRow.t) (e : exception) :
  ((call (create_user candidate) d).1.1 = Raise e →
   e ∈ [error_of NameEmpty; error_of AgeOutOfRange; Conflict; internal_error])
  ∧ ((call (delete_user name) d).1.1 = Raise e → e ∈ [NotFound; internal_error])
  ∧ ((call (upload_users csv_data) d).1.1 = Raise e → e = internal_error)
  ∧ ((call get_average_age_by_group d).1.1 = Raise e → e ∈ [NoRecords; internal_error]).
Proof.
  repeat split.
  - rewrite create_user_cases.
    repeat match goal with |- context [if ?b then _ else _] => destruct b end;
      cbn [fst]; intros [= <-]; rewrite !elem_of_cons; auto.
  - rewrite delete_user_cases. case_bool_decide; cbn [fst]; intros [= <-].
    apply elem_of_cons. now left.
  - rewrite upload_users_call.
    destruct (for_each csv_data upload_row (SessionLocal d)) as [[[]|e'] s];
      cbn [fst]; now intros [= <-].
  - rewrite get_average_age_by_group_cases. case_bool_decide; cbn [fst]; intros [= <-].
    apply elem_of_cons. now left.
Qed.

Lemma only_http_errors_witness :
  (call (create_user (UserCreate.Build "Bob" (-2147483649))) empty_database).1.1
  = Raise internal_error
  ∧ internal_error
    ∈ [error_of NameEmpty; error_of AgeOutOfRange; Conflict; internal_error].
Proof.
  assert (H : (call (create_user (UserCreate.Build "Bob" (-2147483649))) empty_database).1.1
              = Raise internal_error) by (vm_compute; reflexivity).
  split; [exact H|].
  destruct (only_http_errors empty_database (UserCreate.Build "Bob" (-2147483649)) "Amy" []
              internal_error) as [Hcreate _].
  apply Hcreate, H.
Defined.

(** ** Averages *)

Lemma sum_bounds ages lo hi :
  Forall (λ a, lo ≤ a ≤ hi) ages →
  lo * Z.of_nat (length ages) ≤ sum ages ≤ hi * Z.of_nat (length ages).
Proof.
  induction 1 as [|a ages Ha _ IH]; [simpl; lia|].
  cbn [length sum foldr]. fold (sum ages). lia.
Qed.

Lemma mean_bounds ages lo hi :
  - 2 ^ 53 ≤ lo → hi ≤ 2 ^ 53 →
  ages ≠ [] → Forall (λ a, lo ≤ a ≤ hi) ages →
  (inject_Z lo <= mean ages <= inject_Z hi)%Q.
Proof.
  intros Hlo Hhi Hne Hall. unfold mean. apply round64_between; [exact Hlo | exact Hhi |].
  pose proof (sum_bounds _ _ _ Hall) as Hsum.
  destruct ages as [|a ages]; [contradiction|].
  unfold Qle, inject_Z. cbn [Qnum Qden length] in *.
  rewrite <- Pos.of_nat_succ.
  change (Z.pos (Pos.of_succ_nat (length ages))) with (Z.of_nat (S (length ages))).
  lia.
Qed.

(** X18. Every average returned lies between the bounds of the stored ages:
    if all stored ages are between two integers of magnitude at most [2^53],
    so is the [float64] average of each group. *)
Theorem average_within_bounds (d : database) (lo hi : Z) (avg : gmap string Q)
    (k : string) (q : Q) :
  - 2 ^ 53 ≤ lo → hi ≤ 2 ^ 53 →
  Forall (λ u, lo ≤ User.age u ≤ hi) (users d) →
  (call get_average_age_by_group d).1.1 = Return avg →
  avg !! k = Some q →
  (inject_Z lo <= q <= inject_Z hi)%Q.
Proof.
  intros Hlo Hhi Hall. rewrite get_average_age_by_group_cases.
  case_bool_decide; cbn [fst]; [discriminate|]. intros [= <-].
  rewrite lookup_fmap, groupby_lookup, ages_of_users.
  case_bool_decide as Hages; simpl; [discriminate|]. intros [= <-].
  apply mean_bounds; [exact Hlo | exact Hhi | exact Hages |].
  apply Forall_fmap, Forall_forall. intros u Hu.
  apply list_elem_of_filter in Hu as [_ Hu].
  rewrite Forall_forall in Hall. now apply Hall.
Qed.

Lemma average_within_bounds_witness : (inject_Z 10 <= 20 <= inject_Z 30)%Q.
Proof.
  apply (average_within_bounds alice_amy_bob 10 30 {[ "A" := 20%Q; "B" := 20%Q ]} "A" 20%Q).
  - vm_compute. discriminate.
  - vm_compute. discriminate.
  - unfold alice_amy_bob. cbn [users]. repeat constructor; simpl; lia.
  - vm_compute. reflexivity.
  - reflexivity.
Defined.

Lemma sum_Permutation ages ages' : ages ≡ₚ ages' → sum ages = sum ages'.
Proof.
  unfold sum. induction 1; simpl; lia.
Qed.

Lemma mean_Permutation ages ages' : ages ≡ₚ ages' → mean ages = mean ages'.
Proof.
  intros H. unfold mean.
  now rewrite (sum_Permutation _ _ H), (Permutation_length H).
Qed.

(** X15. The averages do not depend on the order in which the storage hands
    over the rows: two databases holding the same rows in different orders
    get the same answer. *)
Theorem average_ignores_row_order (d d' : database) :
  users d ≡ₚ users d' →
  (call get_average_age_by_group d).1.1 = (call get_average_age_by_group d').1.1.
Proof.
  intros Hperm. rewrite !get_average_age_by_group_cases.
  case_bool_decide as Hd; case_bool_decide as Hd'; cbn [fst].
  - reflexivity.
  - rewrite Hd in Hperm. apply Permutation_nil_l in Hperm. congruence.
  - rewrite Hd' in Hperm. now apply Permutation_nil_r in Hperm.
  - f_equal. apply map_eq. intros k.
    rewrite !lookup_fmap, !groupby_lookup, !ages_of_users.
    assert (Hages : User.age <$> filter (λ u, group (User.name u) = Some k) (users d)
                    ≡ₚ User.age <$> filter (λ u, group (User.name u) = Some k) (users d'))
      by now rewrite Hperm.
    case_bool_decide as H1; case_bool_decide as H2; simpl.
    + reflexivity.
    + rewrite H1 in Hages. apply Permutation_nil_l in Hages. congruence.
    + rewrite H2 in Hages. now apply Permutation_nil_r in Hages.
    + f_equal. now apply mean_Permutation.
Qed.

Lemma average_ignores_row_order_witness :
  (call get_average_age_by_group alice_amy_bob).1.1
  = (call get_average_age_by_group
       (Database [User.Build 2 "Amy" 10; User.Build 1 "Alice" 30; User.Build 3 "Bob" 20] 4)).1.1.
Proof.
  apply average_ignores_row_order. unfold alice_amy_bob. cbn [users].
  apply perm_swap.
Defined.

